(** * caronas-app: the document store, week rotation and trip merge

    A shallow embedding of [services/dataUtils.ts] (sanitizeData,
    loadAppData, saveAppData, generateParticipantId, formatDate,
    generateWeekName, parseStartDateFromWeekName, getAllUniqueNames) and of
    the statistics, the effect and the document handlers of [App.tsx]
    (saveData, autoArchiveCurrent, the handlers of the weeks, of the trips
    and of the participants, toggleTripType), with the properties the
    specification states about them and further properties of the code.

    Conventions.
    - A JavaScript string is a Rocq [string]; each [ascii] stands for one
      UTF-16 code unit below 256 (Latin-1), which covers the Portuguese
      names and labels the application handles.
    - A JavaScript object used as a dictionary is a [gmap string _] of its
      own properties.  Properties inherited from [Object.prototype] are not
      part of the model.
    - Services of the JavaScript host that the repository does not define
      ([JSON.parse], [localeCompare], the system clock, the locale date
      format) are Section variables; every theorem holds for all of them. *)

From Stdlib Require Import ZArith String Ascii List Permutation Lia PrimFloat.
From Stdlib Require Import DecimalString DecimalPos Sorted.
From stdpp Require Import gmap strings list fin_maps.

#[local] Set Warnings "-register-all".
#[local] Open Scope string_scope.

(** ** JavaScript values of type [any] *)

(** What [sanitizeData (data: any)] can be handed: [undefined], [null], a
    primitive, an array or a plain object.  An array is an object too and may
    carry named properties next to its elements. *)
Inductive value : Type :=
| VUndefined
| VNull
| VBool (b : bool)
| VNum (n : float)
| VStr (s : string)
| VArr (elems : list value) (props : gmap string value)
| VObj (props : gmap string value).

(** ToBoolean. *)
Definition truthy (v : value) : bool :=
  match v with
  | VUndefined | VNull => false
  | VBool b => b
  | VNum n => negb (PrimFloat.is_zero n || PrimFloat.is_nan n)
  | VStr s => negb (bool_decide (s = ""))
  | VArr _ _ | VObj _ => true
  end.

(** [typeof v === 'object' && v !== null] *)
Definition is_object (v : value) : bool :=
  match v with
  | VArr _ _ | VObj _ => true
  | _ => false
  end.

(** The named properties of an object; a primitive has none. *)
Definition own_props (v : value) : gmap string value :=
  match v with
  | VArr _ o | VObj o => o
  | _ => ∅
  end.

(** The elements of an array. *)
Definition elements_of (v : value) : list value :=
  match v with
  | VArr es _ => es
  | _ => []
  end.

(** ** Abrupt completion *)

Inductive js_error : Type := TypeError.

Inductive completion (A : Type) : Type :=
| Normal (a : A)
| Throw (e : js_error).
Arguments Normal {A} a.
Arguments Throw {A} e.

#[global] Instance completion_ret : MRet completion := @Normal.
#[global] Instance completion_bind : MBind completion :=
  λ A B f m, match m with Normal a => f a | Throw e => Throw e end.

(** [v.k] for a key [k] that is neither an array index, nor ["length"], nor
    a member of a built-in prototype (the two document keys are the only
    keys it is used with).  Reading a property of [undefined] or [null]
    throws; a primitive answers [undefined]. *)
Definition get_prop (k : string) (v : value) : completion value :=
  match v with
  | VUndefined | VNull => Throw TypeError
  | VArr _ o | VObj o => Normal (default VUndefined (o !! k))
  | VBool _ | VNum _ | VStr _ => Normal VUndefined
  end.

(** [v.k = x] in strict mode (the file is an ES module): creating a property
    on a primitive throws. *)
Definition set_prop (k : string) (x : value) (v : value) : completion value :=
  match v with
  | VObj o => Normal (VObj (<[k := x]> o))
  | VArr es o => Normal (VArr es (<[k := x]> o))
  | _ => Throw TypeError
  end.

(** ** services/dataUtils.ts: sanitizeData *)

(** Modelled from the spec: the constant [DEFAULT_WEEK_NAME] is imported
    from [types.ts], which is not among the sources; the specification gives
    the sentinel as "Semana Atual". *)
Definition DEFAULT_WEEK_NAME : string := "Semana Atual".

(** [{ active_trips: [], currentWeekName: DEFAULT_WEEK_NAME }] *)
Definition emptyDocument : value :=
  VObj (<["currentWeekName" := VStr DEFAULT_WEEK_NAME]>
        (<["active_trips" := VArr [] ∅]> ∅)).

Section Sanitize.

(** [JSON.parse]: [None] stands for the [SyntaxError] it throws. *)
Variable JSON_parse : string → option value.

(** The last three lines of [sanitizeData]. *)
Definition fill_defaults (data : value) : completion value :=
  trips ← get_prop "active_trips" data;
  data ← (if truthy trips then Normal data
          else set_prop "active_trips" (VArr [] ∅) data);
  week ← get_prop "currentWeekName" data;
  if truthy week then Normal data
  else set_prop "currentWeekName" (VStr DEFAULT_WEEK_NAME) data.

Definition sanitizeData (data : value) : completion value :=
  if negb (truthy data) then Normal emptyDocument
  else match data with
       | VStr s =>
           match JSON_parse s with
           | Some parsed => fill_defaults parsed
           | None => Normal emptyDocument
           end
       | _ => fill_defaults data
       end.

(** On an object, [fill_defaults] is two conditional property writes. *)
Definition filled (o : gmap string value) : gmap string value :=
  let o1 := if truthy (default VUndefined (o !! "active_trips")) then o
            else <["active_trips" := VArr [] ∅]> o in
  if truthy (default VUndefined (o1 !! "currentWeekName")) then o1
  else <["currentWeekName" := VStr DEFAULT_WEEK_NAME]> o1.

Definition with_props (v : value) (o : gmap string value) : value :=
  match v with
  | VArr es _ => VArr es o
  | _ => VObj o
  end.

(** The input classes of the specification. *)
Definition malformed (data : value) : Prop :=
  truthy data = false ∨ ∃ s, data = VStr s ∧ JSON_parse s = None.

Definition carries_object (data : value) : Prop :=
  is_object data = true
  ∨ ∃ s o, data = VStr s ∧ s ≠ "" ∧ JSON_parse s = Some o ∧ is_object o = true.

(** A sanitized document: an object whose two fields are truthy. *)
Definition sanitized (v : value) : Prop :=
  is_object v = true
  ∧ (∃ t, own_props v !! "active_trips" = Some t ∧ truthy t = true)
  ∧ (∃ w, own_props v !! "currentWeekName" = Some w ∧ truthy w = true).

End Sanitize.

(** A [JSON.parse] to run the examples with: it agrees with the host's on
    the few texts the examples use, and treats every other text as the
    unparsable ones among them. *)
Definition example_JSON_parse (s : string) : option value :=
  if decide (s = "null") then Some VNull
  else if decide (s = "{}") then Some (VObj ∅)
  else if decide (s = "[]") then Some (VArr [] ∅)
  else None.

(** ** JavaScript strings and numbers *)

#[local] Open Scope Z_scope.

Definition code (c : ascii) : Z := Z.of_N (N_of_ascii c).

(** The characters [\s] and [trim] treat as blank, among the code units
    below 256: tab, line feed, vertical tab, form feed, carriage return,
    space and no-break space. *)
Definition is_white_space (c : ascii) : bool :=
  let n := code c in
  ((9 <=? n) && (n <=? 13)) || (n =? 32) || (n =? 160).

Fixpoint trimStart (s : string) : string :=
  match s with
  | String c rest => if is_white_space c then trimStart rest else s
  | EmptyString => EmptyString
  end.

Fixpoint trimEnd (s : string) : string :=
  match s with
  | String c rest =>
      match trimEnd rest with
      | EmptyString => if is_white_space c then EmptyString
                       else String c EmptyString
      | kept => String c kept
      end
  | EmptyString => EmptyString
  end.

(** [s.trim()] *)
Definition trim (s : string) : string := trimEnd (trimStart s).

(** [s.split(sep)] for a separator of one character. *)
Fixpoint split (sep : ascii) (s : string) : list string :=
  match s with
  | EmptyString => [EmptyString]
  | String c rest =>
      if decide (c = sep) then EmptyString :: split sep rest
      else match split sep rest with
           | piece :: pieces => String c piece :: pieces
           | [] => [String c EmptyString]
           end
  end.

Fixpoint repeat_char (n : nat) (c : ascii) : string :=
  match n with
  | O => EmptyString
  | S n' => String c (repeat_char n' c)
  end.

(** [s.padStart(n, c)] for a filler of one character. *)
Definition padStart (n : nat) (c : ascii) (s : string) : string :=
  repeat_char (n - String.length s) c +:+ s.

(** [s.replace(/\s/g, '')] *)
Fixpoint remove_white_space (s : string) : string :=
  match s with
  | String c rest =>
      if is_white_space c then remove_white_space rest
      else String c (remove_white_space rest)
  | EmptyString => EmptyString
  end.

Definition lower_char (c : ascii) : ascii :=
  let n := code c in
  if ((65 <=? n) && (n <=? 90))
     || ((192 <=? n) && (n <=? 222) && negb (n =? 215))
  then ascii_of_N (Z.to_N (n + 32)) else c.

(** [s.toLowerCase()] *)
Fixpoint toLowerCase (s : string) : string :=
  match s with
  | String c rest => String (lower_char c) (toLowerCase rest)
  | EmptyString => EmptyString
  end.

(** [s.substring(0, n)] *)
Fixpoint prefix_of (n : nat) (s : string) : string :=
  match n, s with
  | S n', String c rest => String c (prefix_of n' rest)
  | _, _ => EmptyString
  end.

(** A JavaScript number that is an integer, or [NaN] ([None]).  The code
    computes with calendar fields and clock readings only. *)
Definition number : Type := option Z.

(** [String(n)] for an integer. *)
Definition decimal (n : Z) : string := NilZero.string_of_int (Z.to_int n).

Definition String_of (n : number) : string :=
  match n with
  | Some z => decimal z
  | None => "NaN"
  end.

Definition digit_of (radix : Z) (c : ascii) : option Z :=
  let n := code c in
  let v := if (48 <=? n) && (n <=? 57) then n - 48
           else if (97 <=? n) && (n <=? 122) then n - 87
           else if (65 <=? n) && (n <=? 90) then n - 55
           else radix in
  if v <? radix then Some v else None.

(** The longest prefix of digits, read in the given radix; [None] when the
    text does not start with a digit. *)
Fixpoint read_digits (radix : Z) (acc : number) (s : string) : number :=
  match s with
  | String c rest =>
      match digit_of radix c with
      | Some v => read_digits radix (Some (default 0 acc * radix + v)) rest
      | None => acc
      end
  | EmptyString => acc
  end.

(** [parseInt(s)] without a radix argument: blanks are skipped, a sign is
    accepted, ["0x"] announces hexadecimal, and the digits up to the first
    other character are read.  [None] is [NaN]. *)
Definition parseInt (s : string) : number :=
  let s := trimStart s in
  let '(sign, s) :=
    match s with
    | String "-"%char rest => (-1, rest)
    | String "+"%char rest => (1, rest)
    | _ => (1, s)
    end in
  let magnitude :=
    match s with
    | String "0"%char (String "x"%char rest)
    | String "0"%char (String "X"%char rest) => read_digits 16 None rest
    | _ => read_digits 10 None s
    end in
  (λ m, sign * m) <$> magnitude.

(** [parseInt(parts[i])]: a missing part is [undefined], which reads as
    [NaN]. *)
Definition parseInt_part (parts : list string) (i : nat) : number :=
  part ← parts !! i; parseInt part.

(** ** JavaScript dates, in local time

    The code only reads and writes the local calendar fields of a date, so
    a valid [Date] is modelled by these fields (proleptic Gregorian, as in
    ECMAScript); [None] is the Invalid Date.  The range limit of ECMAScript
    time values (about 270,000 years either side of 1970) is not modelled. *)

Record Date : Type := mkDate {
  fullYear : Z;
  month : Z;   (* 0 .. 11, as [getMonth] *)
  date : Z     (* 1 .. 31, as [getDate] *)
}.

Definition is_leap (y : Z) : bool :=
  (y mod 4 =? 0) && (negb (y mod 100 =? 0) || (y mod 400 =? 0)).

Definition days_in_month (y m : Z) : Z :=
  if m =? 1 then (if is_leap y then 29 else 28)
  else if (m =? 3) || (m =? 5) || (m =? 8) || (m =? 10) then 30
  else 31.

Definition next_day (d : Date) : Date :=
  if date d <? days_in_month (fullYear d) (month d)
  then mkDate (fullYear d) (month d) (date d + 1)
  else if month d <? 11 then mkDate (fullYear d) (month d + 1) 1
  else mkDate (fullYear d + 1) 0 1.

Definition previous_day (d : Date) : Date :=
  if 1 <? date d then mkDate (fullYear d) (month d) (date d - 1)
  else if 0 <? month d
       then mkDate (fullYear d) (month d - 1)
                   (days_in_month (fullYear d) (month d - 1))
  else mkDate (fullYear d - 1) 11 31.

(** The day [n] days after [d] (before, when [n] is negative). *)
Definition days_later (n : Z) (d : Date) : Date :=
  if 0 <=? n then Nat.iter (Z.to_nat n) next_day d
  else Nat.iter (Z.to_nat (- n)) previous_day d.

(** ECMAScript MakeDay: month [m] of year [y] may lie outside 0..11 and day
    [d] outside the month; both carry over. *)
Definition make_day (y m d : Z) : Date :=
  days_later (d - 1) (mkDate (y + m / 12) (m mod 12) 1).

(** [new Date(year, month, day)]; years 0 to 99 mean 1900 to 1999. *)
Definition new_Date (year month day : number) : option Date :=
  y ← year; m ← month; d ← day;
  let y := if (0 <=? y) && (y <=? 99) then 1900 + y else y in
  Some (make_day y m d).

Definition getDate (d : option Date) : number := date <$> d.
Definition getMonth (d : option Date) : number := month <$> d.
Definition getFullYear (d : option Date) : number := fullYear <$> d.

(** [d.setDate(n)], as a function from the old date to the new one. *)
Definition setDate (d : option Date) (n : number) : option Date :=
  d ← d; n ← n; Some (make_day (fullYear d) (month d) n).

(** [d.getDay()]: 0 is Sunday. *)
Definition getDay (d : option Date) : number :=
  d ← d;
  let m := month d + 1 in
  let y := if m <? 3 then fullYear d - 1 else fullYear d in
  let t := nth (Z.to_nat (month d)) [0; 3; 2; 5; 0; 3; 5; 1; 4; 6; 2; 4] 0 in
  Some ((y + y / 4 - y / 100 + y / 400 + t + date d) mod 7).

Definition plus (a b : number) : number := a ← a; b ← b; Some (a + b).
Definition minus (a b : number) : number := a ← a; b ← b; Some (a - b).

(** ** services/dataUtils.ts: identifiers and week names *)

(** [generateParticipantId], given the reading [now] of [Date.now()]. *)
Definition generateParticipantId (now : Z) (name : string) : string :=
  "p-" +:+ decimal now +:+ "-"
  +:+ prefix_of 5 (toLowerCase (remove_white_space name)).

Definition formatDate (d : option Date) : string :=
  let day := padStart 2 "0" (String_of (getDate d)) in
  let month := padStart 2 "0" (String_of (plus (getMonth d) (Some 1))) in
  let year := getFullYear d in
  day +:+ "/" +:+ month +:+ "/" +:+ String_of year.

(** [generateWeekName]; [None] is the [null] it returns. *)
Definition generateWeekName (startDateString : string) : option string :=
  if decide (startDateString = "") then None
  else
    let parts := split "-" startDateString in
    let year := parseInt_part parts 0 in
    let month := minus (parseInt_part parts 1) (Some 1) in
    let day := parseInt_part parts 2 in
    let startDate := new_Date year month day in
    let endDate := startDate in
    let endDate := setDate endDate (plus (getDate startDate) (Some 4)) in
    Some ("Semana " +:+ formatDate startDate +:+ " - " +:+ formatDate endDate).

(** ** The document as App.tsx types it *)

(** The interfaces [TripType], [Participant], [Trip] and [AppData] are
    declared in [types.ts], which is not among the sources.  They are taken
    from the data model of the specification; the fields are the ones
    App.tsx reads and writes. *)

(** Modelled from the spec: the direction of a trip, one of Ida (outbound)
    and Volta (return). *)
Inductive TripType : Type := Ida | Volta.

(** Modelled from the spec: one rider's payment record for one trip. *)
Record Participant : Type := mkParticipant {
  id : string;
  name : string;
  paid : bool
}.

(** Modelled from the spec: one directional leg on one calendar day;
    [time] is optional ([null] in the trips App.tsx creates). *)
Record Trip : Type := mkTrip {
  day : string;
  time : option string;
  type : TripType;
  participants : list Participant
}.

#[global] Instance TripType_eq_dec : EqDecision TripType.
Proof. solve_decision. Defined.
#[global] Instance Participant_eq_dec : EqDecision Participant.
Proof. solve_decision. Defined.
#[global] Instance Trip_eq_dec : EqDecision Trip.
Proof. solve_decision. Defined.

(** Modelled from the spec: what a key of the document holds, an array of
    trips ([active_trips] and the archive slots) or a text
    ([currentWeekName]). *)
Inductive entry : Type :=
| Trips (trips : list Trip)
| Text (s : string).

(** Modelled from the spec: the document [AppData].  It is a JavaScript
    object, one name space for the two fields and the archive slots. *)
Abbreviation AppData := (gmap string entry).

(** [data.active_trips] and [data.currentWeekName]; [None] when the object is
    not an [AppData] (the field is missing or is not of its declared type),
    which leaves the typed model. *)
Definition active_trips (d : AppData) : option (list Trip) :=
  match d !! "active_trips" with
  | Some (Trips ts) => Some ts
  | _ => None
  end.

Definition currentWeekName (d : AppData) : option string :=
  match d !! "currentWeekName" with
  | Some (Text s) => Some s
  | _ => None
  end.

(** ToBoolean of [data[key]]: an absent key is [undefined], an array is
    truthy, a text is truthy unless empty. *)
Definition holds (d : AppData) (key : string) : bool :=
  match d !! key with
  | Some (Trips _) => true
  | Some (Text s) => negb (bool_decide (s = ""))
  | None => false
  end.

(** An archive slot: a key other than the two fields. *)
Definition archive_slot (d : AppData) (key : string) : Prop :=
  key ≠ "active_trips" ∧ key ≠ "currentWeekName" ∧ is_Some (d !! key).

(** The document the application starts with,
    [{ active_trips: [], currentWeekName: DEFAULT_WEEK_NAME }]. *)
Definition initialData : AppData :=
  <["currentWeekName" := Text DEFAULT_WEEK_NAME]>
    (<["active_trips" := Trips []]> ∅).

(** ** App.tsx: week rotation *)

(** The disambiguated archive name,
    [`${archiveName} (Arq. ${today}-${now % 1000})`]. *)
Definition disambiguated (today : string) (now : Z) (archiveName : string) : string :=
  archiveName +:+ " (Arq. " +:+ today +:+ "-" +:+ decimal (Z.rem now 1000) +:+ ")".

(** [autoArchiveCurrent].  The two readings of the clock are inputs:
    [today] is [new Date().toLocaleDateString('pt-BR')] and [now] is
    [Date.now()].  The result is [(archivedName, updatedData)]. *)
Definition autoArchiveCurrent (today : string) (now : Z) (currentData : AppData)
  : option (option string * AppData) :=
  trips ← active_trips currentData;
  name ← currentWeekName currentData;
  let newData := currentData in
  if (0 <? Z.of_nat (length trips))
     || (negb (bool_decide (name = DEFAULT_WEEK_NAME)) && negb (holds newData name))
  then
    let archiveName := name in
    let archiveName :=
      if holds newData archiveName || bool_decide (archiveName = DEFAULT_WEEK_NAME)
      then disambiguated today now archiveName
      else archiveName in
    let newData := <[archiveName := Trips trips]> newData in
    let newData := <["active_trips" := Trips []]> newData in
    let newData := <["currentWeekName" := Text DEFAULT_WEEK_NAME]> newData in
    Some (Some archiveName, newData)
  else Some (None, newData).

(** ** App.tsx: the component state and its handlers *)

Inductive Modal : Type := ModalNone | ModalNewWeek | ModalAddTrip | ModalBackup.

(** The state the document handlers touch, and a log of their effects:
    [saved] lists the documents handed to [saveAppData], oldest first,
    [alerts] the messages shown, and [clockReads] counts the calls of
    [Date.now()] so far.  Presentation state (toast, sidebar) is left out. *)
Record App : Type := mkApp {
  data : AppData;
  modalOpen : Modal;
  newTripDate : string;
  newTripTypes : list TripType;
  selectedExistingNames : list string;
  newParticipantInput : string;
  participantSearchTerm : string;
  saved : list AppData;
  alerts : list string;
  clockReads : nat
}.

Definition alert (msg : string) (st : App) : App :=
  mkApp (data st) (modalOpen st) (newTripDate st) (newTripTypes st)
        (selectedExistingNames st) (newParticipantInput st)
        (participantSearchTerm st) (saved st) (alerts st ++ [msg])%list
        (clockReads st).

(** [saveData]: [setData(newData); saveAppData(newData)]. *)
Definition saveData (newData : AppData) (st : App) : App :=
  mkApp newData (modalOpen st) (newTripDate st) (newTripTypes st)
        (selectedExistingNames st) (newParticipantInput st)
        (participantSearchTerm st) (saved st ++ [newData])%list (alerts st)
        (clockReads st).

(** [handleDeleteWeek]; [confirmed] is the answer to the [confirm] dialog. *)
Definition handleDeleteWeek (confirmed : bool) (weekName : string) (st : App)
  : option App :=
  current ← currentWeekName (data st);
  let isActive := bool_decide (weekName = current) in
  if negb confirmed then Some st
  else
    let newData := data st in
    let newData :=
      if isActive
      then <["currentWeekName" := Text DEFAULT_WEEK_NAME]>
             (<["active_trips" := Trips []]> newData)
      else delete weekName newData in
    Some (saveData newData st).

(** [Array.from(new Set(xs))]: the distinct members, each at its first
    occurrence. *)
Fixpoint Set_of (xs : list string) : list string :=
  match xs with
  | [] => []
  | x :: rest => x :: filter (λ y, y ≠ x) (Set_of rest)
  end.

(** [Array.prototype.sort] with a comparator, as a stable insertion sort. *)
Fixpoint insert_sorted {A} (cmp : A → A → Z) (x : A) (sorted : list A) : list A :=
  match sorted with
  | [] => [x]
  | y :: rest => if cmp x y <=? 0 then x :: y :: rest
                 else y :: insert_sorted cmp x rest
  end.

Definition sort {A} (cmp : A → A → Z) (xs : list A) : list A :=
  foldr (insert_sorted cmp) [] xs.

(** The labels of [daysPT]; "ç" and "á" are the code units 231 and 225. *)
Definition daysPT : list string :=
  [ "Domingo"; "Segunda-feira"; "Ter" +:+ String "231" "a-feira";
    "Quarta-feira"; "Quinta-feira"; "Sexta-feira";
    String "S" (String "225" "bado") ].

Definition is_digit (c : ascii) : bool := (48 <=? code c) && (code c <=? 57).

Fixpoint all_digits (s : string) : bool :=
  match s with
  | String c rest => is_digit c && all_digits rest
  | EmptyString => true
  end.

(** [new Date(field + 'T12:00:00')] for the value of a date input, which is
    empty or a calendar date written YYYY-MM-DD.  On any other text engines
    differ; the model answers with the Invalid Date. *)
Definition new_Date_at_noon (field : string) : option Date :=
  match split "-" field with
  | [ys; ms; ds] =>
      if (String.length ys =? 4)%nat && (String.length ms =? 2)%nat
         && (String.length ds =? 2)%nat
         && all_digits ys && all_digits ms && all_digits ds
      then
        y ← read_digits 10 None ys;
        m ← read_digits 10 None ms;
        d ← read_digits 10 None ds;
        if (1 <=? m) && (m <=? 12) && (1 <=? d) && (d <=? days_in_month y (m - 1))
        then Some (mkDate y (m - 1) d) else None
      else None
  | _ => None
  end.

(** The [formattedDate] of [handleAddTrip]. *)
Definition formattedDate (newTripDate : string) : string :=
  let dateObj := new_Date_at_noon newTripDate in
  let dayName :=
    default "undefined" (n ← getDay dateObj; daysPT !! Z.to_nat n) in
  dayName +:+ " (" +:+ padStart 2 "0" (String_of (getDate dateObj))
  +:+ "/" +:+ padStart 2 "0" (String_of (plus (getMonth dateObj) (Some 1)))
  +:+ ")".

(** [newParticipantInput.split('\n').map(s => s.trim()).filter(s => s)] *)
Definition manualNames (newParticipantInput : string) : list string :=
  filter (λ s, s ≠ "") (trim <$> split "010" newParticipantInput).

Section Handlers.

(** [a.localeCompare(b, 'pt-BR')] *)
Variable localeCompare : string → string → Z.

(** [Date_now k] is what the call number [k] of [Date.now()] returns. *)
Variable Date_now : nat → Z.

Definition targetNames (st : App) : list string :=
  let targetNameSet :=
    Set_of (selectedExistingNames st ++ manualNames (newParticipantInput st))%list in
  sort localeCompare targetNameSet.

Definition by_name (a b : Participant) : Z := localeCompare (name a) (name b).

(** [names.map(name => find(name) || { id: generateParticipantId(name),
    name, paid: false })], threading the count of clock readings; [find]
    answers with the participant to reuse, if any. *)
Fixpoint participants_for (find : string → option Participant)
    (names : list string) (reads : nat) : list Participant * nat :=
  match names with
  | [] => ([], reads)
  | name :: rest =>
      match find name with
      | Some existingPerson =>
          let '(ps, reads) := participants_for find rest reads in
          (existingPerson :: ps, reads)
      | None =>
          let person :=
            mkParticipant (generateParticipantId (Date_now reads) name) name false in
          let '(ps, reads) := participants_for find rest (S reads) in
          (person :: ps, reads)
      end
  end.

(** [existingTrip.participants.find(p => p.name === name)] *)
Definition find_by_name (ps : list Participant) (n : string) : option Participant :=
  snd <$> list_find (λ p, name p = n) ps.

(** The body of [selectedTypes.forEach(type => ...)], on the pair of the
    list being built and the count of clock readings. *)
Definition addTripOfType (formattedDate : string) (targetNames : list string)
    (acc : list Trip * nat) (ty : TripType) : list Trip * nat :=
  let '(newTripsList, reads) := acc in
  match list_find (λ t, day t = formattedDate ∧ type t = ty) newTripsList with
  | Some (existingIndex, existingTrip) =>
      let '(mergedParticipants, reads) :=
        participants_for (find_by_name (participants existingTrip))
                         targetNames reads in
      let mergedParticipants := sort by_name mergedParticipants in
      (<[existingIndex :=
           mkTrip (day existingTrip) (time existingTrip) (type existingTrip)
                  mergedParticipants]> newTripsList, reads)
  | None =>
      let '(participants, reads) :=
        participants_for (λ _, None) targetNames reads in
      let participants := sort by_name participants in
      ((newTripsList ++ [mkTrip formattedDate None ty participants])%list, reads)
  end.

Definition handleAddTrip (st : App) : option App :=
  if decide (newTripDate st = "")
  then Some (alert "Selecione a data." st)
  else if decide (newTripTypes st = [])
  then Some (alert "Selecione pelo menos um tipo (Ida ou Volta)." st)
  else
    let formattedDate := formattedDate (newTripDate st) in
    let targetNames := targetNames st in
    if decide (targetNames = [])
    then Some (alert "Adicione participantes." st)
    else
      trips ← active_trips (data st);
      let selectedTypes := newTripTypes st in
      let '(newTripsList, reads) :=
        foldl (addTripOfType formattedDate targetNames)
              (trips, clockReads st) selectedTypes in
      let st := saveData (<["active_trips" := Trips newTripsList]> (data st)) st in
      Some (mkApp (data st) ModalNone "" (newTripTypes st) [] ""
                  "" (saved st) (alerts st) reads).

End Handlers.

(** A text that contains a blank; the names of the two fields do not. *)
Fixpoint has_space (s : string) : bool :=
  match s with
  | String c rest => bool_decide (c = " "%char) || has_space rest
  | EmptyString => false
  end.

(** ** services/dataUtils.ts: saveAppData *)

(** A timer of the host, pending: its handle, the time it is due, and the
    document its callback closes over. *)
Record Timer : Type := mkTimer {
  handle : positive;
  due : Z;
  payload : AppData
}.

(** The world [saveAppData] acts on.  [clock] is the time in milliseconds,
    [localStorage] the document last written under LOCAL_STORAGE_KEY,
    [saveTimeout] the module variable of that name ([None] is [null]),
    [timers] the pending timers in the order they were set, and [upserts]
    the payloads of the calls of [upsert] on the remote table, oldest
    first. *)
Record Store : Type := mkStore {
  clock : Z;
  localStorage : option AppData;
  saveTimeout : option positive;
  timers : list Timer;
  nextHandle : positive;
  upserts : list AppData
}.

Definition clearTimeout (h : positive) (st : Store) : Store :=
  mkStore (clock st) (localStorage st) (saveTimeout st)
          (filter (λ t, handle t ≠ h) (timers st)) (nextHandle st) (upserts st).

(** [setTimeout(callback, delay)], for the callback that upserts [doc]; the
    handle it returns is stored in [saveTimeout]. *)
Definition setTimeout (doc : AppData) (delay : Z) (st : Store) : Store :=
  mkStore (clock st) (localStorage st) (Some (nextHandle st))
          (timers st ++ [mkTimer (nextHandle st) (clock st + delay) doc])%list
          (Pos.succ (nextHandle st)) (upserts st).

Section Save.

(** Whether [localStorage.setItem] accepts the document; when it throws
    (quota), the error is caught and logged. *)
Variable setItem_succeeds : AppData → bool.

Definition saveAppData (doc : AppData) (st : Store) : Store :=
  let st :=
    if setItem_succeeds doc
    then mkStore (clock st) (Some doc) (saveTimeout st) (timers st)
                 (nextHandle st) (upserts st)
    else st in
  let st :=
    match saveTimeout st with
    | Some h => clearTimeout h st
    | None => st
    end in
  setTimeout doc 1000 st.

(** [ms] milliseconds pass: the timers that are due fire, oldest first, and
    each callback calls [upsert] with its payload (the outcome of the call
    is only logged). *)
Definition elapse (ms : Z) (st : Store) : Store :=
  let now := clock st + ms in
  let fired := filter (λ t, due t <= now) (timers st) in
  mkStore now (localStorage st) (saveTimeout st)
          (filter (λ t, ¬ due t <= now) (timers st)) (nextHandle st)
          (upserts st ++ (payload <$> fired))%list.

Inductive event : Type :=
| Save (doc : AppData)
| Elapse (ms : Z).

Definition react (st : Store) (e : event) : Store :=
  match e with
  | Save doc => saveAppData doc st
  | Elapse ms => elapse ms st
  end.

Definition run (events : list event) (st : Store) : Store := foldl react st events.

(** A burst of saves: the first one, then each further one [gap]
    milliseconds after the one before. *)
Definition burst (first : AppData) (rest : list (Z * AppData)) : list event :=
  Save first :: (rest ≫= λ '(gap, doc), [Elapse gap; Save doc]).

(** The state right after a save of [doc]: one timer is pending, a full
    quiet period away, and it carries [doc]. *)
Definition just_saved (doc : AppData) (sent : list AppData) (st : Store) : Prop :=
  ∃ h, timers st = [mkTimer h (clock st + 1000) doc]
       ∧ saveTimeout st = Some h ∧ upserts st = sent.

(** At most one timer is pending, and [saveTimeout] holds its handle. *)
Definition tracked (st : Store) : Prop :=
  timers st = [] ∨ ∃ t, timers st = [t] ∧ saveTimeout st = Some (handle t).

End Save.

(** ** What the specification says, in the terms of the model *)

Section MergeRelation.

Variable Date_now : nat → Z.

(** What the merge puts on the trip for the name [n], given the
    participants [old] of the existing trip: the first participant of that
    name or, when there is none, a new unpaid one. *)
Definition participant_for (old : list Participant) (n : string) (p : Participant) : Prop :=
  find_by_name old n = Some p
  ∨ (find_by_name old n = None
     ∧ ∃ k, p = mkParticipant (generateParticipantId (Date_now k) n) n false).

(** The trip [t'] is [existingTrip] with its participants replaced by the
    ones for [names]. *)
Definition merged_into (existingTrip : Trip) (names : list string) (t' : Trip) : Prop :=
  day t' = day existingTrip ∧ time t' = time existingTrip
  ∧ type t' = type existingTrip
  ∧ ∃ ps, Forall2 (participant_for (participants existingTrip)) names ps
          ∧ participants t' ≡ₚ ps.

End MergeRelation.

(** The name the week is archived under. *)
Definition archive_key (today : string) (now : Z) (d : AppData) (name : string)
  : string :=
  if holds d name || bool_decide (name = DEFAULT_WEEK_NAME)
  then disambiguated today now name else name.

Definition digit_char (n : Z) : ascii := ascii_of_N (Z.to_N (48 + n)).

(** A number below 100 written with two digits. *)
Definition two_digits (n : Z) : string :=
  String (digit_char (n / 10)) (String (digit_char (n mod 10)) EmptyString).

(** The format DD/MM/YYYY of the specification. *)
Definition DD_MM_YYYY (d : Date) : string :=
  two_digits (date d) +:+ "/" +:+ two_digits (month d + 1) +:+ "/"
  +:+ decimal (fullYear d).

(** The value of a date input, YYYY-MM-DD. *)
Definition date_input (d : Date) : string :=
  decimal (fullYear d) +:+ "-" +:+ two_digits (month d + 1) +:+ "-"
  +:+ two_digits (date d).

Definition valid_date (d : Date) : Prop :=
  0 <= month d <= 11 ∧ 1 <= date d <= days_in_month (fullYear d) (month d).

Fixpoint occurs (c : ascii) (s : string) : bool :=
  match s with
  | String c' rest => bool_decide (c' = c) || occurs c rest
  | EmptyString => false
  end.

(** The number a decimal numeral denotes, read digit by digit after [acc]. *)
Fixpoint uint_value (acc : Z) (u : Decimal.uint) : Z :=
  match u with
  | Decimal.Nil => acc
  | Decimal.D0 u => uint_value (acc * 10 + 0) u
  | Decimal.D1 u => uint_value (acc * 10 + 1) u
  | Decimal.D2 u => uint_value (acc * 10 + 2) u
  | Decimal.D3 u => uint_value (acc * 10 + 3) u
  | Decimal.D4 u => uint_value (acc * 10 + 4) u
  | Decimal.D5 u => uint_value (acc * 10 + 5) u
  | Decimal.D6 u => uint_value (acc * 10 + 6) u
  | Decimal.D7 u => uint_value (acc * 10 + 7) u
  | Decimal.D8 u => uint_value (acc * 10 + 8) u
  | Decimal.D9 u => uint_value (acc * 10 + 9) u
  end.

Definition field_text_ok (n : Z) : bool :=
  negb (occurs "-" (two_digits n))
  && bool_decide (parseInt (two_digits n) = Some n)
  && bool_decide (padStart 2 "0" (decimal n) = two_digits n).

(** ** Documents and host services for the examples *)

Definition week_named_after_field : AppData :=
  <["currentWeekName" := Text "active_trips"]> (<["active_trips" := Trips []]> ∅).

Definition trip_of (d : string) (names : list string) : Trip :=
  mkTrip d None Ida ((λ n, mkParticipant ("p-0-" +:+ n) n true) <$> names).

(** A document whose sentinel week was already archived today, at a time
    ending in 123 ms. *)
Definition archived_today : AppData :=
  <["Semana Atual (Arq. 02/11/2026-123)" := Trips [trip_of "Segunda-feira (26/10)" ["Ana"]]]>
    (<["currentWeekName" := Text DEFAULT_WEEK_NAME]>
       (<["active_trips" := Trips [trip_of "Segunda-feira (02/11)" ["Bruno"]]]> ∅)).

(** The scenario of the specification: Ana, who paid, and Bruno share the
    Monday outbound trip; the form then asks for Bruno and Carla. *)
Definition monday_trip : Trip :=
  mkTrip "Segunda-feira (03/06)" None Ida
         [ mkParticipant "p-1717400000000-ana" "Ana" true;
           mkParticipant "p-1717400000001-bruno" "Bruno" false ].

Definition monday_form : App :=
  mkApp (<["active_trips" := Trips [monday_trip]]> initialData)
        ModalAddTrip "2024-06-03" [Ida] ["Bruno"] "Carla" "" [] [] 0.

(** A store at rest. *)
Definition idle_store : Store := mkStore 0 None None [] 1 [].

(** A comparator to run the examples with: the order of the code units. *)
Definition by_code (a b : string) : Z :=
  match String.compare a b with Lt => -1 | Eq => 0 | Gt => 1 end.

(** ** App.tsx: the statistics and the other handlers *)

(** [totalPayers] and [totalParticipants], over [data.active_trips]. *)
Definition totalPayers (trips : list Trip) : nat :=
  foldl (λ acc t, acc + length (filter (λ p, paid p = true) (participants t)))%nat
        0%nat trips.

Definition totalParticipants (trips : list Trip) : nat :=
  foldl (λ acc t, acc + length (participants t))%nat 0%nat trips.

(** The form of the "Nova Semana" dialog. *)
Record WeekForm : Type := mkWeekForm {
  newWeekDate : string;
  newWeekError : string
}.

Definition with_clockReads (reads : nat) (st : App) : App :=
  mkApp (data st) (modalOpen st) (newTripDate st) (newTripTypes st)
        (selectedExistingNames st) (newParticipantInput st)
        (participantSearchTerm st) (saved st) (alerts st) reads.

Definition with_modalOpen (m : Modal) (st : App) : App :=
  mkApp (data st) m (newTripDate st) (newTripTypes st)
        (selectedExistingNames st) (newParticipantInput st)
        (participantSearchTerm st) (saved st) (alerts st) (clockReads st).

Definition with_selectedExistingNames (names : list string) (st : App) : App :=
  mkApp (data st) (modalOpen st) (newTripDate st) (newTripTypes st)
        names (newParticipantInput st)
        (participantSearchTerm st) (saved st) (alerts st) (clockReads st).

#[global] Instance Modal_eq_dec : EqDecision Modal.
Proof. solve_decision. Defined.

(** [toggleTripType]: the set of selected types, in insertion order. *)
Definition toggleTripType (ty : TripType) (newTripTypes : list TripType)
  : list TripType :=
  let newSet := newTripTypes in
  if decide (ty ∈ newSet)
  then if (1 <? length newSet)%nat then filter (λ x, x ≠ ty) newSet else newSet
  else (newSet ++ [ty])%list.

(** The effect that runs when the date, the types, the dialog or the trips
    change: it tells whether the form edits an existing trip and, if so,
    checks the names of the first matching trip.  The result is the new
    value of [isEditingExistingTrip] and the new state. *)
Definition existingTripEffect (isEditingExistingTrip : bool) (st : App)
  : option (bool * App) :=
  if negb (bool_decide (modalOpen st = ModalAddTrip))
     || bool_decide (newTripDate st = "")
  then Some (if negb (bool_decide (modalOpen st = ModalAddTrip)) then false
             else isEditingExistingTrip, st)
  else
    trips ← active_trips (data st);
    let formattedDate := formattedDate (newTripDate st) in
    match list_find (λ t, day t = formattedDate ∧ type t ∈ newTripTypes st) trips with
    | Some (_, firstMatch) =>
        let currentNames := Set_of (name <$> participants firstMatch) in
        Some (true, with_selectedExistingNames currentNames st)
    | None => Some (false, with_selectedExistingNames [] st)
    end.

Section MoreHandlers.

Variable localeCompare : string → string → Z.
Variable Date_now : nat → Z.

(** The call [autoArchiveCurrent(data)] of a handler, with the count of the
    clock readings: [Date.now()] is read when the archive name is
    disambiguated, that is when the key used is not the name of the week. *)
Definition rotate (today : string) (st : App)
  : option (option string * AppData * nat) :=
  name ← currentWeekName (data st);
  '(archivedName, updatedData) ←
    autoArchiveCurrent today (Date_now (clockReads st)) (data st);
  let reads :=
    match archivedName with
    | Some key => if decide (key = name) then clockReads st
                  else S (clockReads st)
    | None => clockReads st
    end in
  Some (archivedName, updatedData, reads).

(** The message [`A semana "${newName}" já existe.`]; the quotation mark and
    "á" are the code units 34 and 225. *)
Definition week_exists_message (newName : string) : string :=
  "A semana " +:+ String "034" newName
  +:+ String "034" (" j" +:+ String "225" " existe.").

(** [handleCreateNewWeek], on the form of the dialog and the state. *)
Definition handleCreateNewWeek (today : string) (form : WeekForm) (st : App)
  : option (WeekForm * App) :=
  if decide (newWeekDate form = "")
  then Some (mkWeekForm (newWeekDate form) "Selecione uma data.", st)
  else
    match generateWeekName (newWeekDate form) with
    | None => Some (form, st)
    | Some newName =>
        '(archivedName, updatedData, reads) ← rotate today st;
        let st := with_clockReads reads st in
        if holds updatedData newName
        then Some (mkWeekForm (newWeekDate form) (week_exists_message newName), st)
        else
          let updatedData := <["currentWeekName" := Text newName]> updatedData in
          let updatedData := <["active_trips" := Trips []]> updatedData in
          let st := saveData updatedData st in
          Some (mkWeekForm "" "", with_modalOpen ModalNone st)
    end.

(** [updatedData[weekName] || []], then through
    [JSON.parse(JSON.stringify(_))], which copies trips as they are. *)
Definition stored_week (d : AppData) (weekName : string) : entry :=
  match d !! weekName with
  | Some (Trips ts) => Trips ts
  | Some (Text s) => if decide (s = "") then Trips [] else Text s
  | None => Trips []
  end.

Definition handleSelectWeek (today : string) (weekName : string) (st : App)
  : option App :=
  current ← currentWeekName (data st);
  if decide (weekName = current) then Some st
  else
    '(archivedName, updatedData, reads) ← rotate today st;
    let st := with_clockReads reads st in
    let updatedData :=
      if decide (weekName = DEFAULT_WEEK_NAME)
      then <["active_trips" := Trips []]> updatedData
      else delete weekName
             (<["active_trips" := stored_week updatedData weekName]> updatedData) in
    let updatedData := <["currentWeekName" := Text weekName]> updatedData in
    Some (saveData updatedData st).

(** [handleEditActiveWeekName]; [answer] is what [prompt] returns, [None]
    for [null]. *)
Definition handleEditActiveWeekName (answer : option string) (st : App)
  : option App :=
  current ← currentWeekName (data st);
  if decide (current = DEFAULT_WEEK_NAME) then Some st
  else
    match answer with
    | Some newName =>
        if negb (bool_decide (newName = "")) && negb (bool_decide (trim newName = ""))
        then
          if holds (data st) (trim newName)
          then Some (alert ("Nome j" +:+ String "225" " existe.") st)
          else Some (saveData (<["currentWeekName" := Text (trim newName)]> (data st)) st)
        else Some st
    | None => Some st
    end.

(** [handleDeleteTrip]; [splice(index, 1)] removes nothing when the index is
    past the end. *)
Definition handleDeleteTrip (confirmed : bool) (index : nat) (st : App)
  : option App :=
  if negb confirmed then Some st
  else
    trips ← active_trips (data st);
    let newTrips := delete index trips in
    Some (saveData (<["active_trips" := Trips newTrips]> (data st)) st).

Definition with_participants (ps : list Participant) (t : Trip) : Trip :=
  mkTrip (day t) (time t) (type t) ps.

(** [handleDeleteParticipant]; [None] also when [newTrips[tIdx]] is
    [undefined] and the handler throws. *)
Definition handleDeleteParticipant (confirmed : bool) (tIdx pIdx : nat) (st : App)
  : option App :=
  if negb confirmed then Some st
  else
    trips ← active_trips (data st);
    trip ← trips !! tIdx;
    let newTrips :=
      <[tIdx := with_participants (delete pIdx (participants trip)) trip]> trips in
    Some (saveData (<["active_trips" := Trips newTrips]> (data st)) st).

(** [handleEditParticipantName]; [None] also when the trip or the
    participant is [undefined] and the handler throws. *)
Definition handleEditParticipantName (answer : option string) (tIdx pIdx : nat)
    (st : App) : option App :=
  trips ← active_trips (data st);
  trip ← trips !! tIdx;
  person ← participants trip !! pIdx;
  match answer with
  | Some newName =>
      if negb (bool_decide (newName = "")) && negb (bool_decide (trim newName = ""))
      then
        let renamed := mkParticipant (id person) (trim newName) (paid person) in
        let ps := sort (by_name localeCompare)
                       (<[pIdx := renamed]> (participants trip)) in
        let newTrips := <[tIdx := with_participants ps trip]> trips in
        Some (saveData (<["active_trips" := Trips newTrips]> (data st)) st)
      else Some st
  | None => Some st
  end.

(** [handleTogglePayment]; [None] also when the trip or the participant is
    [undefined] and the handler throws. *)
Definition handleTogglePayment (tIdx pIdx : nat) (st : App) : option App :=
  trips ← active_trips (data st);
  trip ← trips !! tIdx;
  person ← participants trip !! pIdx;
  let toggled := mkParticipant (id person) (name person) (negb (paid person)) in
  let newTrips :=
    <[tIdx := with_participants (<[pIdx := toggled]> (participants trip)) trip]>
      trips in
  Some (saveData (<["active_trips" := Trips newTrips]> (data st)) st).

End MoreHandlers.

(** ** services/dataUtils.ts: loadAppData *)

(** What the query [select('payload')...maybeSingle()] does: it throws, or
    it returns [{ data, error }], where [data] is [null] or the row, given
    here by its [payload], and [error] is [null] or an error. *)
Inductive remote_read : Type :=
| ReadThrows
| ReadReturns (row : option value) (error : bool).

(** What [localStorage.getItem(LOCAL_STORAGE_KEY)] does: it throws, or it
    returns the stored text, [None] for [null]. *)
Inductive local_read : Type :=
| GetThrows
| Got (item : option string).

(** The stores as [loadAppData] meets them. *)
Record Backend : Type := mkBackend {
  remote : remote_read;
  insert_throws : bool;     (* whether the [insert] of the default row throws *)
  local : local_read;
  setItem_throws : bool     (* whether [localStorage.setItem] throws *)
}.

(** What [loadAppData] returns and does: [cached] is the text [setItem]
    stored, if it stored one, and [inserted] the payload of the [insert] it
    issued, if it issued one. *)
Record Loaded : Type := mkLoaded {
  result : value;
  cached : option string;
  inserted : option value
}.

Section Load.

Variable JSON_parse : string → option value.
Variable JSON_stringify : value → string.

(** Step 1, the [try] around the remote read: the document found, if any,
    and the two effects. *)
Definition load_remote (w : Backend)
  : option value * option string * option value :=
  match remote w with
  | ReadThrows => (None, None, None)
  | ReadReturns data error =>
      if bool_decide (is_Some data) && truthy (default VUndefined data)
      then
        match sanitizeData JSON_parse (default VUndefined data) with
        | Normal finalData =>
            (Some finalData,
             if setItem_throws w then None else Some (JSON_stringify finalData),
             None)
        | Throw _ => (None, None, None)
        end
      else if negb (bool_decide (is_Some data)) && negb error
      then
        let defaultData := emptyDocument in
        if insert_throws w then (None, None, Some defaultData)
        else (Some defaultData, None, Some defaultData)
      else (None, None, None)
  end.

(** Step 2, the [try] around the local read. *)
Definition load_local (w : Backend) : option value :=
  match local w with
  | GetThrows => None
  | Got None => None
  | Got (Some stored) =>
      if bool_decide (stored = "") then None
      else
        match JSON_parse stored with
        | Some parsed =>
            match sanitizeData JSON_parse parsed with
            | Normal finalData => Some finalData
            | Throw _ => None
            end
        | None => None
        end
  end.

(** [loadAppData]; [finalData] is [None] while it is [null], and the two
    tests of it are tests of truthiness. *)
Definition loadAppData (w : Backend) : Loaded :=
  let '(finalData, cached, inserted) := load_remote w in
  let finalData :=
    if negb (truthy (default VNull finalData)) then load_local w
    else finalData in
  mkLoaded (if truthy (default VNull finalData) then default VNull finalData
            else emptyDocument)
           cached inserted.

End Load.

(** ** services/dataUtils.ts: parseStartDateFromWeekName *)

Fixpoint drop_chars (n : nat) (s : string) : string :=
  match n, s with
  | S n', String _ rest => drop_chars n' rest
  | _, _ => s
  end.

(** [\d{2}\/\d{2}\/\d{4}] at the start of [s]: the ten characters matched. *)
Definition date_here (s : string) : option string :=
  match s with
  | String d1 (String d2 (String "/" (String m1 (String m2 (String "/"
      (String y1 (String y2 (String y3 (String y4 _))))))))) =>
      if is_digit d1 && is_digit d2 && is_digit m1 && is_digit m2
         && is_digit y1 && is_digit y2 && is_digit y3 && is_digit y4
      then Some (prefix_of 10 s) else None
  | _ => None
  end.

(** The regular expression at the start of [s]: the group it captures. *)
Definition week_here (s : string) : option string :=
  if String.prefix "Semana " s then date_here (drop_chars 7 s) else None.

(** [weekName.match(/Semana (\d{2}\/\d{2}\/\d{4})/)]: the group of the
    leftmost match. *)
Fixpoint week_match (s : string) : option string :=
  match week_here s with
  | Some group => Some group
  | None =>
      match s with
      | String _ rest => week_match rest
      | EmptyString => None
      end
  end.

(** [parseStartDateFromWeekName]; the outer [None] is the [null] it
    returns.  [Number] is applied to texts of digits only. *)
Definition parseStartDateFromWeekName (weekName : string) : option (option Date) :=
  match week_match weekName with
  | Some group =>
      let parts := read_digits 10 None <$> split "/" group in
      let part i := mjoin (parts !! i) in
      Some (new_Date (part 2%nat) (minus (part 1%nat) (Some 1)) (part 0%nat))
  | None => None
  end.

(** ** services/dataUtils.ts: getAllUniqueNames *)

Definition names_of (trips : list Trip) : list string :=
  trips ≫= λ trip, name <$> participants trip.

Section UniqueNames.

Variable localeCompare : string → string → Z.

(** [Object.keys(data)]: the keys of the document, in the order the host
    lists them. *)
Variable Object_keys : AppData → list string.

(** [getAllUniqueNames]: the names are added to a [Set], first those of the
    active trips and then those of every other key that holds an array. *)
Definition getAllUniqueNames (data : AppData) : option (list string) :=
  active ← active_trips data;
  let archived :=
    Object_keys data ≫= λ key,
      if decide (key ≠ "active_trips" ∧ key ≠ "currentWeekName")
      then match data !! key with
           | Some (Trips trips) => names_of trips
           | _ => []
           end
      else [] in
  let names := Set_of (names_of active ++ archived)%list in
  Some (sort localeCompare names).

End UniqueNames.

(** ** Orders and keys the further properties speak of *)

(** [a] may stand before [b] under the comparator. *)
Definition in_order {A} (cmp : A → A → Z) (a b : A) : Prop := cmp a b <= 0.

(** A comparator that orders every pair one way or the other, as
    [localeCompare] does. *)
Definition total_comparator {A} (cmp : A → A → Z) : Prop :=
  ∀ a b, cmp a b <= 0 ∨ cmp b a <= 0.

(** The day and the direction of a trip. *)
Definition trip_key (t : Trip) : string * TripType := (day t, type t).

(** What saving the form leaves in the list for the day [fd] and the
    direction [ty]: at place [i] the trip [t'], merged from the first trip
    of that day and direction that was there or, when there was none, made
    anew after the trips that were there. *)
Definition settled (Date_now : nat → Z) (fd : string) (names : list string)
    (ty : TripType) (before : list Trip) (i : nat) (t' : Trip) : Prop :=
  match list_find (λ t, day t = fd ∧ type t = ty) before with
  | Some (i0, t) => i = i0 ∧ merged_into Date_now t names t'
  | None => (length before <= i)%nat
            ∧ merged_into Date_now (mkTrip fd None ty []) names t'
  end.

(** The dialog opened again on the Monday outbound trip, nothing typed. *)
Definition monday_reopened : App :=
  mkApp (<["active_trips" := Trips [monday_trip]]> initialData)
        ModalAddTrip "2024-06-03" [Ida] [] "" "" [] [] 0.

(** ** What rotation does, for the properties of the week handlers *)

(** Whether [autoArchiveCurrent] archives the week. *)
Definition rotates (d : AppData) (trips : list Trip) (name : string) : bool :=
  negb (bool_decide (trips = [])
        && (bool_decide (name = DEFAULT_WEEK_NAME) || holds d name)).

(** The document with its week archived under [key]. *)
Definition archived_under (key : string) (trips : list Trip) (d : AppData)
  : AppData :=
  <["currentWeekName" := Text DEFAULT_WEEK_NAME]>
    (<["active_trips" := Trips []]> (<[key := Trips trips]> d)).

(** Two weeks: the one of June 3rd, active with the Monday trip, and the one
    of May 27th, archived. *)
Definition two_weeks : App :=
  mkApp (<["Semana 27/05/2024 - 31/05/2024" :=
             Trips [trip_of "Segunda-feira (27/05)" ["Ana"]]]>
           (<["currentWeekName" := Text "Semana 03/06/2024 - 07/06/2024"]>
              (<["active_trips" := Trips [monday_trip]]> ∅)))
        ModalNone "" [Ida] [] "" "" [] [] 0.

(** ** The edits of the trip list *)

(** What the user does to the list of trips: the four handlers behind the
    buttons of a trip card, with the answers of [confirm] and [prompt]. *)
Inductive trip_edit : Type :=
| DeleteTrip (confirmed : bool) (index : nat)
| DeleteParticipant (confirmed : bool) (tIdx pIdx : nat)
| EditParticipantName (answer : option string) (tIdx pIdx : nat)
| TogglePayment (tIdx pIdx : nat).

Definition edit (localeCompare : string → string → Z) (e : trip_edit) (st : App)
  : option App :=
  match e with
  | DeleteTrip confirmed index => handleDeleteTrip confirmed index st
  | DeleteParticipant confirmed tIdx pIdx =>
      handleDeleteParticipant confirmed tIdx pIdx st
  | EditParticipantName answer tIdx pIdx =>
      handleEditParticipantName localeCompare answer tIdx pIdx st
  | TogglePayment tIdx pIdx => handleTogglePayment tIdx pIdx st
  end.

(** A document with an archived week, to list the names of. *)
Definition names_example : AppData :=
  <["Semana 27/05/2024 - 31/05/2024" :=
      Trips [trip_of "Segunda-feira (27/05)" ["Carla"; "Ana"]]]>
    (data monday_form).

(** An [Object.keys] to run the examples with: the keys in the order of
    their code units. *)
Definition example_Object_keys (d : AppData) : list string :=
  sort by_code (elements (dom d)).

(** ** The texts of a date, for the properties of the week name *)

(** A day or a month as the week name carries it: two digits that [Number]
    reads back. *)
Definition date_field_ok (n : Z) : bool :=
  all_digits (two_digits n)
  && bool_decide (read_digits 10 None (two_digits n) = Some n).

(** A year of four digits as the week name carries it. *)
Definition year_field_ok (y : Z) : bool :=
  (String.length (decimal y) =? 4)%nat
  && all_digits (decimal y)
  && bool_decide (read_digits 10 None (decimal y) = Some y).

(** The documents a sequence of events saves, in order. *)
Definition saved_docs (events : list event) : list AppData :=
  events ≫= λ e, match e with Save doc => [doc] | Elapse _ => [] end.

(** Three saves of the example documents, the last two in one burst. *)
Definition three_saves : list event :=
  [ Save initialData; Elapse 1500; Save archived_today; Elapse 200;
    Save week_named_after_field; Elapse 300 ].

(** * Properties *)

(** ** sanitizeData *)

Section SanitizeProperties.

Variable JSON_parse : string → option value.

Abbreviation sanitize := (sanitizeData JSON_parse).

Lemma truthy_object v : is_object v = true → truthy v = true.
Proof. by destruct v. Qed.

Lemma emptyDocument_sanitized : sanitized emptyDocument.
Proof.
  split; [done|]. split.
  - exists (VArr [] ∅). by split.
  - exists (VStr DEFAULT_WEEK_NAME). by split.
Qed.

Lemma fill_defaults_object v :
  is_object v = true →
  fill_defaults v = Normal (with_props v (filled (own_props v))).
Proof.
  destruct v as [| | | | |es o|o]; try discriminate; intros _;
    unfold fill_defaults, filled; simpl;
    destruct (truthy (default VUndefined (o !! "active_trips"))); simpl;
    match goal with
    | |- context [truthy (default VUndefined (?m !! "currentWeekName"))] =>
        destruct (truthy (default VUndefined (m !! "currentWeekName")))
    end; reflexivity.
Qed.

Lemma filled_active_trips o :
  ∃ t, filled o !! "active_trips" = Some t ∧ truthy t = true.
Proof.
  unfold filled.
  set (o1 := if truthy (default VUndefined (o !! "active_trips")) then o
             else <["active_trips" := VArr [] ∅]> o).
  assert (∃ t, o1 !! "active_trips" = Some t ∧ truthy t = true) as (t & Ht & Htt).
  { subst o1. destruct (truthy (default VUndefined (o !! "active_trips"))) eqn:Ht.
    - destruct (o !! "active_trips") as [t|]; [|discriminate]. by exists t.
    - exists (VArr [] ∅). by rewrite lookup_insert_eq. }
  clearbody o1. exists t. split; [|done].
  destruct (truthy (default VUndefined (o1 !! "currentWeekName"))); [done|].
  by rewrite lookup_insert_ne.
Qed.

Lemma filled_currentWeekName o :
  ∃ w, filled o !! "currentWeekName" = Some w ∧ truthy w = true.
Proof.
  unfold filled.
  set (o1 := if truthy (default VUndefined (o !! "active_trips")) then o
             else <["active_trips" := VArr [] ∅]> o).
  destruct (truthy (default VUndefined (o1 !! "currentWeekName"))) eqn:Hw.
  - destruct (o1 !! "currentWeekName") as [w|] eqn:Ho; [|discriminate].
    by exists w.
  - exists (VStr DEFAULT_WEEK_NAME). by rewrite lookup_insert_eq.
Qed.

Lemma filled_other o k :
  k ≠ "active_trips" → k ≠ "currentWeekName" → filled o !! k = o !! k.
Proof.
  intros Ha Hw. unfold filled.
  destruct (truthy (default VUndefined (o !! "active_trips")));
    destruct (truthy _); by rewrite ?lookup_insert_ne.
Qed.

Lemma own_props_with_props v o :
  is_object v = true → own_props (with_props v o) = o.
Proof. by destruct v. Qed.

Lemma fill_defaults_sanitized v r :
  fill_defaults v = Normal r → sanitized r.
Proof.
  intros H. assert (Hobj : is_object v = true).
  { destruct v as [| | | | |es o|o]; try done; 
      unfold fill_defaults in H; simpl in H; discriminate. }
  rewrite fill_defaults_object in H by done. injection H as <-.
  split; [by destruct v|]. rewrite own_props_with_props by done.
  split; [apply filled_active_trips | apply filled_currentWeekName].
Qed.

Lemma sanitizeData_sanitized data r : sanitize data = Normal r → sanitized r.
Proof.
  unfold sanitizeData. destruct (negb (truthy data)).
  { intros [= <-]. apply emptyDocument_sanitized. }
  destruct data; try apply fill_defaults_sanitized.
  destruct (JSON_parse s); [apply fill_defaults_sanitized|].
  intros [= <-]. apply emptyDocument_sanitized.
Qed.

Lemma filled_fixpoint o :
  (∃ t, o !! "active_trips" = Some t ∧ truthy t = true) →
  (∃ w, o !! "currentWeekName" = Some w ∧ truthy w = true) →
  filled o = o.
Proof.
  intros (t & Ht & Htt) (w & Hw & Hwt). unfold filled.
  rewrite Ht. simpl. rewrite Htt, Hw. simpl. by rewrite Hwt.
Qed.

Lemma sanitizeData_fixpoint r : sanitized r → sanitize r = Normal r.
Proof.
  intros (Hobj & Ht & Hw). unfold sanitizeData.
  rewrite truthy_object by done. simpl.
  assert (fill_defaults r = Normal r) as Hr.
  { rewrite fill_defaults_object by done.
    rewrite filled_fixpoint by done. by destruct r. }
  by destruct r.
Qed.

(** C6.  Sanitizing is idempotent: feeding the outcome of [sanitizeData]
    back into [sanitizeData] changes nothing.  An input on which the first
    call throws has no outcome to feed back; the composition then throws the
    same error. *)
Theorem sanitizeData_idempotent (data : value) :
  sanitize data ≫= sanitize = sanitize data.
Proof.
  destruct (sanitize data) as [r|e] eqn:H; [|done].
  simpl. apply sanitizeData_fixpoint. by eapply sanitizeData_sanitized.
Qed.

Lemma sanitizeData_object v :
  is_object v = true →
  sanitize v = Normal (with_props v (filled (own_props v))).
Proof.
  intros Hobj. unfold sanitizeData. rewrite truthy_object by done. simpl.
  rewrite <- fill_defaults_object by done. by destruct v.
Qed.


(** C10 (as amended).  On a non-null object [sanitizeData] returns the same
    object (same elements, when it is an array) with every property other
    than [active_trips] and [currentWeekName] as it was; each of these two
    is kept when it holds a truthy value and is otherwise (missing, or
    holding a falsy value) set to its default. *)
Theorem sanitizeData_frame (v : value) :
  is_object v = true →
  ∃ r, sanitize v = Normal r
    ∧ r = with_props v (own_props r)
    ∧ (∀ k, k ≠ "active_trips" → k ≠ "currentWeekName" →
            own_props r !! k = own_props v !! k)
    ∧ own_props r !! "active_trips" =
        (if truthy (default VUndefined (own_props v !! "active_trips"))
         then own_props v !! "active_trips" else Some (VArr [] ∅))
    ∧ own_props r !! "currentWeekName" =
        (if truthy (default VUndefined (own_props v !! "currentWeekName"))
         then own_props v !! "currentWeekName"
         else Some (VStr DEFAULT_WEEK_NAME)).
Proof.
  intros Hobj. exists (with_props v (filled (own_props v))).
  rewrite own_props_with_props by done. split.
  { unfold sanitizeData. rewrite truthy_object by done. simpl.
    rewrite <- fill_defaults_object by done. by destruct v. }
  split; [done|]. split; [intros; by apply filled_other|].
  generalize (own_props v). intros o. unfold filled.
  destruct (truthy (default VUndefined (o !! "active_trips"))) eqn:Ht.
  - destruct (truthy (default VUndefined (o !! "currentWeekName"))) eqn:Hw.
    + done.
    + split; [by rewrite lookup_insert_ne | by rewrite lookup_insert_eq].
  - rewrite (lookup_insert_ne _ "active_trips" "currentWeekName") by done.
    destruct (truthy (default VUndefined (o !! "currentWeekName"))) eqn:Hw.
    + split; [by rewrite lookup_insert_eq | by rewrite lookup_insert_ne].
    + split; [|by rewrite lookup_insert_eq].
      rewrite lookup_insert_ne by done. by rewrite lookup_insert_eq.
Qed.

End SanitizeProperties.



Lemma sanitizeData_frame_witness :
  let v := VObj {[ "Semana 1" := VArr [] ∅ ]} in
  ∃ r, sanitizeData example_JSON_parse v = Normal r
    ∧ r = with_props v (own_props r)
    ∧ (∀ k, k ≠ "active_trips" → k ≠ "currentWeekName" →
            own_props r !! k = own_props v !! k)
    ∧ own_props r !! "active_trips" =
        (if truthy (default VUndefined (own_props v !! "active_trips"))
         then own_props v !! "active_trips" else Some (VArr [] ∅))
    ∧ own_props r !! "currentWeekName" =
        (if truthy (default VUndefined (own_props v !! "currentWeekName"))
         then own_props v !! "currentWeekName"
         else Some (VStr DEFAULT_WEEK_NAME)).
Proof.
  intros v. apply (sanitizeData_frame example_JSON_parse v). reflexivity.
Defined.

(** C10 (as stated) fails on a field that is present with a falsy value:
    [active_trips: null] is replaced by the empty array and an empty
    [currentWeekName] by the sentinel. *)
Lemma sanitizeData_replaces_falsy_fields :
  ∃ r, sanitizeData example_JSON_parse
         (VObj (<["currentWeekName" := VStr ""]> {[ "active_trips" := VNull ]}))
       = Normal r
    ∧ own_props r !! "active_trips" = Some (VArr [] ∅)
    ∧ own_props r !! "currentWeekName" = Some (VStr DEFAULT_WEEK_NAME).
Proof. eexists. split; [reflexivity|]. split; reflexivity. Qed.

(** ** Week rotation *)

Section Rotation.

Variables (today : string) (now : Z).

Lemma has_space_app a b : has_space (a +:+ String " " b) = true.
Proof.
  induction a as [|c a IH]; simpl; [done|]. rewrite IH. apply orb_true_r.
Qed.

Lemma disambiguated_not_field archiveName :
  disambiguated today now archiveName ≠ "active_trips"
  ∧ disambiguated today now archiveName ≠ "currentWeekName".
Proof.
  assert (Hs : has_space (disambiguated today now archiveName) = true).
  { exact (has_space_app archiveName _). }
  split; intros H; rewrite H in Hs; discriminate.
Qed.

Lemma holds_active_trips (d : AppData) trips :
  active_trips d = Some trips → holds d "active_trips" = true.
Proof.
  unfold active_trips, holds.
  by destruct (d !! "active_trips") as [[]|].
Qed.

Lemma holds_currentWeekName (d : AppData) :
  currentWeekName d = Some "currentWeekName" → holds d "currentWeekName" = true.
Proof.
  unfold currentWeekName, holds.
  destruct (d !! "currentWeekName") as [[|s]|]; try done. by intros [= ->].
Qed.

(** An archive slot that holds trips is seen by the truthiness test. *)
Lemma holds_archive_slot (d : AppData) key :
  (∀ s, d !! key = Some (Text s) → s ≠ "") →
  key ≠ "active_trips" → key ≠ "currentWeekName" →
  holds d key = true ↔ archive_slot d key.
Proof.
  intros Htext Ha Hw. unfold holds, archive_slot.
  destruct (d !! key) as [[ts|s]|] eqn:Hd.
  - naive_solver.
  - specialize (Htext s eq_refl). rewrite bool_decide_eq_false_2 by done.
    naive_solver.
  - split; [done|]. by intros (_ & _ & [? ?]).
Qed.

Lemma archive_key_not_field (d : AppData) trips name :
  active_trips d = Some trips → currentWeekName d = Some name →
  archive_key today now d name ≠ "active_trips" ∧ archive_key today now d name ≠ "currentWeekName".
Proof.
  intros Ht Hn. unfold archive_key.
  destruct (holds d name || bool_decide (name = DEFAULT_WEEK_NAME)) eqn:Hh.
  { apply disambiguated_not_field. }
  apply orb_false_elim in Hh as [Hh _]. split; intros ->.
  - by rewrite (holds_active_trips d trips) in Hh.
  - by rewrite holds_currentWeekName in Hh.
Qed.

Lemma autoArchiveCurrent_unfold (d : AppData) trips name :
  active_trips d = Some trips → currentWeekName d = Some name →
  autoArchiveCurrent today now d =
    if bool_decide (trips = [])
       && (bool_decide (name = DEFAULT_WEEK_NAME) || holds d name)
    then Some (None, d)
    else Some (Some (archive_key today now d name),
               <["currentWeekName" := Text DEFAULT_WEEK_NAME]>
                 (<["active_trips" := Trips []]>
                    (<[archive_key today now d name := Trips trips]> d))).
Proof.
  intros Ht Hn. unfold autoArchiveCurrent, archive_key. rewrite Ht, Hn. simpl.
  destruct trips as [|t trips]; simpl;
    destruct (bool_decide (name = DEFAULT_WEEK_NAME)), (holds d name); done.
Qed.


Lemma append_not_self a b : b ≠ "" → a +:+ b ≠ a.
Proof.
  intros Hb. induction a as [|c a IH]; simpl; [done|]. intros [= H]. by apply IH.
Qed.

(** The disambiguated name differs from the name it comes from. *)
Lemma disambiguated_not_self archiveName :
  disambiguated today now archiveName ≠ archiveName.
Proof. by apply append_not_self. Qed.

(** Rotation touches three keys only. *)
Lemma autoArchiveCurrent_frame (d : AppData) trips name archivedName updatedData k :
  active_trips d = Some trips → currentWeekName d = Some name →
  autoArchiveCurrent today now d = Some (archivedName, updatedData) →
  k ≠ "active_trips" → k ≠ "currentWeekName" → archivedName ≠ Some k →
  updatedData !! k = d !! k.
Proof.
  intros Ht Hn. rewrite (autoArchiveCurrent_unfold d trips name) by done.
  destruct (_ && _); intros [= <- <-] ???; [done|].
  rewrite !lookup_insert_ne; congruence.
Qed.

(** For a week that is not named after a field, the truthiness test is the
    presence of an archive slot. *)
Lemma autoArchiveCurrent_noop_iff_slot (d : AppData) trips name :
  active_trips d = Some trips → currentWeekName d = Some name →
  name ≠ "active_trips" → name ≠ "currentWeekName" →
  (∀ s, d !! name = Some (Text s) → s ≠ "") →
  autoArchiveCurrent today now d = Some (None, d)
  ↔ trips = [] ∧ (name = DEFAULT_WEEK_NAME ∨ archive_slot d name).
Proof.
  intros Ht Hn Ha Hw Htext.
  rewrite (autoArchiveCurrent_unfold d trips name) by done.
  rewrite <- (holds_archive_slot d name) by done.
  destruct (bool_decide (trips = [])
            && (bool_decide (name = DEFAULT_WEEK_NAME) || holds d name)) eqn:Hc.
  - split; [intros _|done].
    apply andb_true_iff in Hc as [?%bool_decide_eq_true Hc].
    apply orb_true_iff in Hc as [?%bool_decide_eq_true|?]; auto.
  - split; [by intros [=]|]. intros [-> Hor].
    rewrite bool_decide_eq_true_2 in Hc by done. simpl in Hc.
    destruct Hor as [->|Hh]; [by rewrite bool_decide_eq_true_2 in Hc|].
    by rewrite Hh, orb_true_r in Hc.
Qed.

(** So a slot that bears the name of the current week is left as it is: the
    week is archived next to it, under the disambiguated name. *)
Lemma autoArchiveCurrent_keeps_named_slot (d : AppData) trips name archivedName updatedData :
  active_trips d = Some trips → currentWeekName d = Some name →
  archive_slot d name → holds d name = true →
  autoArchiveCurrent today now d = Some (archivedName, updatedData) →
  updatedData !! name = d !! name.
Proof.
  intros Ht Hn (Ha & Hw & _) Hh Hrun.
  eapply autoArchiveCurrent_frame; [done..|].
  rewrite (autoArchiveCurrent_unfold d trips name) in Hrun by done.
  destruct (_ && _); injection Hrun as <- <-; [done|].
  unfold archive_key. rewrite Hh. simpl.
  intros [= H]. by apply disambiguated_not_self in H.
Qed.

End Rotation.



(** C4.  The disambiguated key is not checked against the slots of the
    document: rotating [archived_today] on 02/11/2026 at a time ending in
    123 ms synthesizes the key of the existing slot and replaces the trips
    stored there. *)
Theorem autoArchiveCurrent_overwrites_slot :
  ∃ updatedData,
    autoArchiveCurrent "02/11/2026" 1793620800123 archived_today
      = Some (Some "Semana Atual (Arq. 02/11/2026-123)", updatedData)
    ∧ archived_today !! "Semana Atual (Arq. 02/11/2026-123)"
      = Some (Trips [trip_of "Segunda-feira (26/10)" ["Ana"]])
    ∧ updatedData !! "Semana Atual (Arq. 02/11/2026-123)"
      = Some (Trips [trip_of "Segunda-feira (02/11)" ["Bruno"]]).
Proof. eexists. split; [reflexivity|]. split; reflexivity. Qed.

(** ** Deleting a week *)

(** C9.  Deleting the active week resets [currentWeekName] to the sentinel
    and empties [active_trips], and every other key keeps its contents;
    deleting any other week name removes the key of that name and changes
    nothing else.  Either way the new document is handed to the store. *)
Theorem handleDeleteWeek_frame (st : App) (weekName current : string) :
  currentWeekName (data st) = Some current →
  ∃ st', handleDeleteWeek true weekName st = Some st'
    ∧ saved st' = (saved st ++ [data st'])%list
    ∧ (weekName = current →
         currentWeekName (data st') = Some DEFAULT_WEEK_NAME
         ∧ active_trips (data st') = Some []
         ∧ ∀ k, k ≠ "active_trips" → k ≠ "currentWeekName" →
                data st' !! k = data st !! k)
    ∧ (weekName ≠ current →
         data st' !! weekName = None
         ∧ ∀ k, k ≠ weekName → data st' !! k = data st !! k).
Proof.
  intros Hc. unfold handleDeleteWeek. rewrite Hc. simpl.
  eexists. split; [done|]. simpl. split; [done|]. split.
  - intros ->. rewrite bool_decide_eq_true_2 by done. split; [|split].
    + unfold currentWeekName. by rewrite lookup_insert_eq.
    + unfold active_trips. rewrite lookup_insert_ne by done.
      by rewrite lookup_insert_eq.
    + intros k Ha Hw. by rewrite !lookup_insert_ne.
  - intros Hne. rewrite bool_decide_eq_false_2 by done. split.
    + apply lookup_delete_eq.
    + intros k Hk. by apply lookup_delete_ne.
Qed.

Lemma handleDeleteWeek_frame_witness :
  let st := mkApp archived_today ModalNone "" [Ida] [] "" "" [] [] 0 in
  let weekName := "Semana Atual (Arq. 02/11/2026-123)" in
  ∃ st', handleDeleteWeek true weekName st = Some st'
    ∧ saved st' = (saved st ++ [data st'])%list
    ∧ (weekName = DEFAULT_WEEK_NAME →
         currentWeekName (data st') = Some DEFAULT_WEEK_NAME
         ∧ active_trips (data st') = Some []
         ∧ ∀ k, k ≠ "active_trips" → k ≠ "currentWeekName" →
                data st' !! k = data st !! k)
    ∧ (weekName ≠ DEFAULT_WEEK_NAME →
         data st' !! weekName = None
         ∧ ∀ k, k ≠ weekName → data st' !! k = data st !! k).
Proof.
  intros st weekName.
  apply (handleDeleteWeek_frame st weekName DEFAULT_WEEK_NAME). reflexivity.
Defined.

Lemma handleDeleteWeek_declined (st : App) (weekName current : string) :
  currentWeekName (data st) = Some current →
  handleDeleteWeek false weekName st = Some st.
Proof. intros Hc. unfold handleDeleteWeek. by rewrite Hc. Qed.

(** ** Adding trips *)

Section AddTrip.

Variable localeCompare : string → string → Z.
Variable Date_now : nat → Z.

Lemma sort_nil_inv {A} (cmp : A → A → Z) (xs : list A) : sort cmp xs = [] → xs = [].
Proof.
  destruct xs as [|x xs]; [done|]. simpl.
  destruct (sort cmp xs) as [|y ys]; simpl; [done|]. by destruct (_ <=? _).
Qed.

(** C8.  When the checked names and the typed lines, trimmed, leave no name
    at all, [handleAddTrip] returns after an alert: the document is the one
    it was and nothing is handed to the store. *)
Theorem handleAddTrip_rejects_empty (st : App) :
  Set_of (selectedExistingNames st ++ manualNames (newParticipantInput st)) = [] →
  ∃ st', handleAddTrip localeCompare Date_now st = Some st'
    ∧ data st' = data st
    ∧ saved st' = saved st
    ∧ ∃ msg, alerts st' = (alerts st ++ [msg])%list.
Proof.
  intros Hempty. unfold handleAddTrip.
  destruct (decide (newTripDate st = "")); [by eauto 10|].
  destruct (decide (newTripTypes st = [])); [by eauto 10|].
  unfold targetNames. rewrite Hempty. simpl. eauto 10.
Qed.

End AddTrip.

Lemma handleAddTrip_rejects_empty_witness :
  let st := mkApp initialData ModalAddTrip "2024-06-03" [Ida] [] "  " "" [] [] 0 in
  ∃ st', handleAddTrip by_code Z.of_nat st = Some st'
    ∧ data st' = data st
    ∧ saved st' = saved st
    ∧ ∃ msg, alerts st' = (alerts st ++ [msg])%list.
Proof.
  intros st. apply (handleAddTrip_rejects_empty by_code Z.of_nat st). reflexivity.
Defined.

Section Merge.

Variable localeCompare : string → string → Z.
Variable Date_now : nat → Z.

Abbreviation participant_for := (participant_for Date_now).
Abbreviation merged_into := (merged_into Date_now).

Lemma find_by_name_Some old n p :
  find_by_name old n = Some p → p ∈ old ∧ name p = n.
Proof.
  unfold find_by_name. intros ([i q] & Hf & ->)%fmap_Some.
  apply list_find_Some in Hf as (Hi & Hn & _). simpl.
  split; [by eapply list_elem_of_lookup_2|done].
Qed.

Lemma find_by_name_None old n :
  find_by_name old n = None ↔ ∀ p, p ∈ old → name p ≠ n.
Proof.
  unfold find_by_name. rewrite fmap_None, list_find_None, Forall_forall. done.
Qed.

Lemma participant_for_name old n p : participant_for old n p → name p = n.
Proof.
  intros [H|(_ & k & ->)]; [|done]. by apply find_by_name_Some in H as [_ ?].
Qed.

Lemma participants_for_spec old names reads :
  Forall2 (participant_for old) names
          (participants_for Date_now (find_by_name old) names reads).1.
Proof.
  revert reads. induction names as [|n names IH]; intros reads; simpl.
  { constructor. }
  destruct (find_by_name old n) as [p|] eqn:Hf.
  - specialize (IH reads).
    destruct (participants_for _ _ names reads) as [ps reads'].
    constructor; [by left|done].
  - specialize (IH (S reads)).
    destruct (participants_for _ _ names (S reads)) as [ps reads'].
    constructor; [|done]. right. eauto.
Qed.

Lemma insert_sorted_Permutation {A} (cmp : A → A → Z) x (l : list A) :
  insert_sorted cmp x l ≡ₚ x :: l.
Proof.
  induction l as [|y l IH]; simpl; [done|].
  destruct (cmp x y <=? 0); [done|]. rewrite IH. apply Permutation_swap.
Qed.

Lemma sort_Permutation {A} (cmp : A → A → Z) (l : list A) : sort cmp l ≡ₚ l.
Proof.
  induction l as [|x l IH]; simpl; [done|].
  rewrite insert_sorted_Permutation. by rewrite IH.
Qed.

Section Step.

Variables (fd : string) (names : list string) (ty : TripType).

Abbreviation step := (addTripOfType localeCompare Date_now fd names).
Abbreviation wanted := (λ t : Trip, day t = fd ∧ type t = ty).

Lemma addTripOfType_merges (acc : list Trip * nat) i t :
  list_find wanted acc.1 = Some (i, t) →
  ∃ t', (step acc ty).1 !! i = Some t' ∧ merged_into t names t'.
Proof.
  destruct acc as [l k]. simpl. intros Hf. unfold addTripOfType. rewrite Hf.
  pose proof (participants_for_spec (participants t) names k) as Hps.
  destruct (participants_for _ _ names k) as [ps k']. simpl in *.
  apply list_find_Some in Hf as (Hi & _ & _).
  eexists. split.
  { apply list_lookup_insert_eq. by eapply lookup_lt_Some. }
  repeat split; simpl. exists ps. split; [done|]. apply sort_Permutation.
Qed.

Lemma addTripOfType_other_find (acc : list Trip * nat) ty' i t :
  ty' ≠ ty →
  list_find wanted acc.1 = Some (i, t) →
  list_find wanted (step acc ty').1 = Some (i, t).
Proof.
  destruct acc as [l k]. simpl. intros Hne Hf. unfold addTripOfType.
  destruct (list_find (λ t0, day t0 = fd ∧ type t0 = ty') l)
    as [[j tj]|] eqn:Hj.
  - destruct (participants_for _ _ names k) as [ps k']. simpl.
    apply list_find_Some in Hj as (Hlj & [_ Htj] & _).
    pose proof Hf as (Hli & [_ Hti] & _)%list_find_Some.
    apply list_find_insert_Some.
    destruct (Nat.lt_total i j) as [?|[->|?]].
    + by left.
    + congruence.
    + right. right. left. split; [done|]. split.
      { simpl. intros [_ ?]. congruence. }
      split; [done|]. intros z ? [_ ?]. congruence.
  - destruct (participants_for _ _ names k) as [ps k']. simpl.
    by apply list_find_app_l.
Qed.

Lemma addTripOfType_other_lookup (acc : list Trip * nat) ty' i t' :
  ty' ≠ ty → acc.1 !! i = Some t' → type t' = ty →
  (step acc ty').1 !! i = Some t'.
Proof.
  destruct acc as [l k]. simpl. intros Hne Hi Ht. unfold addTripOfType.
  destruct (list_find (λ t0, day t0 = fd ∧ type t0 = ty') l)
    as [[j tj]|] eqn:Hj.
  - destruct (participants_for _ _ names k) as [ps k']. simpl.
    apply list_find_Some in Hj as (Hlj & [_ Htj] & _).
    rewrite list_lookup_insert_ne; [done|]. intros ->. congruence.
  - destruct (participants_for _ _ names k) as [ps k']. simpl.
    by apply lookup_app_l_Some.
Qed.

Lemma foldl_addTripOfType_keeps tys (acc : list Trip * nat) i t' :
  ty ∉ tys → acc.1 !! i = Some t' → type t' = ty →
  (foldl step acc tys).1 !! i = Some t'.
Proof.
  revert acc. induction tys as [|ty' tys IH]; intros acc Hnin Hi Ht; [done|].
  simpl. apply not_elem_of_cons in Hnin as [? ?].
  apply IH; [done| |done]. by apply addTripOfType_other_lookup.
Qed.

Lemma foldl_addTripOfType_merges tys (acc : list Trip * nat) i t :
  NoDup tys → ty ∈ tys →
  list_find wanted acc.1 = Some (i, t) →
  ∃ t', (foldl step acc tys).1 !! i = Some t' ∧ merged_into t names t'.
Proof.
  revert acc. induction tys as [|ty' tys IH]; intros acc Hnd Hin Hf.
  { by apply elem_of_nil in Hin. }
  apply NoDup_cons in Hnd as [Hnin Hnd]. simpl.
  destruct (decide (ty' = ty)) as [->|Hne].
  - destruct (addTripOfType_merges acc i t Hf) as (t' & Hi & Hm).
    exists t'. split; [|done].
    apply foldl_addTripOfType_keeps; [done..|].
    destruct Hm as (_ & _ & -> & _).
    by apply list_find_Some in Hf as (_ & [_ ?] & _).
  - apply IH; [done| |by apply addTripOfType_other_find].
    apply elem_of_cons in Hin as [?|?]; [congruence|done].
Qed.

End Step.

(** What [merged_into] says about the participants of the new trip. *)
Lemma merged_into_names t names t' :
  merged_into t names t' → name <$> participants t' ≡ₚ names.
Proof.
  intros (_ & _ & _ & ps & Hall & Hperm). rewrite Hperm.
  clear Hperm. induction Hall as [|n p names ps Hp _ IH]; [done|].
  simpl. by rewrite (participant_for_name _ _ _ Hp), IH.
Qed.

Lemma merged_into_member t names t' p' :
  merged_into t names t' → p' ∈ participants t' →
  name p' ∈ names ∧ participant_for (participants t) (name p') p'.
Proof.
  intros (_ & _ & _ & ps & Hall & Hperm) Hin. rewrite Hperm in Hin.
  clear Hperm. induction Hall as [|n p names ps Hp _ IH].
  { by apply elem_of_nil in Hin. }
  apply elem_of_cons in Hin as [->|Hin].
  - rewrite (participant_for_name _ _ _ Hp). split; [left|done].
  - destruct (IH Hin). split; [by right|done].
Qed.

Lemma merged_into_covers t names t' n :
  merged_into t names t' → n ∈ names →
  ∃ p', p' ∈ participants t' ∧ participant_for (participants t) n p'.
Proof.
  intros (_ & _ & _ & ps & Hall & Hperm) Hin.
  setoid_rewrite Hperm. clear Hperm.
  induction Hall as [|m p names ps Hp _ IH].
  { by apply elem_of_nil in Hin. }
  apply elem_of_cons in Hin as [->|Hin].
  - exists p. split; [left|done].
  - destruct (IH Hin) as (p' & ? & ?). exists p'. split; [by right|done].
Qed.


End Merge.


(** The scenario, run: Bruno keeps his record, Carla is new and unpaid, Ana
    is gone. *)
Example handleAddTrip_scenario :
  (st' ← handleAddTrip by_code (λ k, 1717400005000 + Z.of_nat k) monday_form;
   active_trips (data st'))
  = Some [ mkTrip "Segunda-feira (03/06)" None Ida
             [ mkParticipant "p-1717400000001-bruno" "Bruno" false;
               mkParticipant "p-1717400005000-carla" "Carla" false ] ].
Proof. reflexivity. Qed.

(** ** Week names *)

Example formattedDate_monday : formattedDate "2024-06-03" = "Segunda-feira (03/06)".
Proof. reflexivity. Qed.

Example generateParticipantId_trims :
  generateParticipantId 1717400000000 " Ana Maria" = "p-1717400000000-anama".
Proof. reflexivity. Qed.

Example generateWeekName_over_new_year :
  generateWeekName "2024-12-30" = Some "Semana 30/12/2024 - 03/01/2025".
Proof. reflexivity. Qed.

Example generateWeekName_not_a_date :
  generateWeekName "amanha" = Some "Semana NaN/NaN/NaN - NaN/NaN/NaN".
Proof. reflexivity. Qed.

Section WeekName.

Lemma forallb_seqZ (P : Z → bool) (lo n z : Z) :
  forallb P (seqZ lo n) = true → lo <= z < lo + n → P z = true.
Proof.
  intros Hall Hz. rewrite forallb_forall in Hall. apply Hall.
  apply list_elem_of_In, elem_of_seqZ. lia.
Qed.

Lemma field_texts_ok : forallb field_text_ok (seqZ 0 100) = true.
Proof. vm_compute. reflexivity. Qed.

(** [parseInt] reads back what [String] writes. *)
Lemma read_digits_uint acc u :
  read_digits 10 (Some acc) (NilEmpty.string_of_uint u) = Some (uint_value acc u).
Proof. revert acc. induction u; intros acc; [done|..]; apply IHu. Qed.

Lemma read_digits_uint_first u :
  u ≠ Decimal.Nil →
  read_digits 10 None (NilEmpty.string_of_uint u) = Some (uint_value 0 u).
Proof. destruct u; [done|..]; intros _; exact (read_digits_uint _ u). Qed.

Lemma uint_value_pos u a : uint_value (Z.pos a) u = Z.pos (Pos.of_uint_acc u a).
Proof.
  revert a. induction u; intros a; simpl; [done|..];
    match goal with
    | |- uint_value ?x _ = Z.pos (Pos.of_uint_acc _ ?y) =>
        replace x with (Z.pos y) by lia
    end; apply IHu.
Qed.

Lemma uint_value_0 u : uint_value 0 u = Z.of_N (Pos.of_uint u).
Proof. induction u; simpl; [done|done|..]; apply uint_value_pos. Qed.

Lemma occurs_dash_uint u : occurs "-" (NilEmpty.string_of_uint u) = false.
Proof. induction u; simpl; [done|..]; done. Qed.

Lemma parseInt_uint u :
  u ≠ Decimal.Nil →
  parseInt (NilEmpty.string_of_uint u) = Some (uint_value 0 u).
Proof.
  intros Hu. rewrite <- (read_digits_uint_first u Hu).
  assert (∀ o : number, o = (λ m, 1 * m) <$> o) as Hone.
  { intros [z|]; simpl; [|done]. f_equal. lia. }
  rewrite (Hone (read_digits _ _ _)).
  destruct u as [|u|u|u|u|u|u|u|u|u|u]; [done|..]; [destruct u|..]; reflexivity.
Qed.

Lemma year_text y :
  0 < y →
  occurs "-" (decimal y) = false ∧ parseInt (decimal y) = Some y.
Proof.
  destruct y as [|p|p]; [lia| |lia]. intros _.
  unfold decimal. simpl Z.to_int.
  unfold NilZero.string_of_int, NilZero.string_of_uint.
  pose proof (Unsigned.to_uint_nonnil p) as Hn.
  pose proof (Unsigned.of_to p) as Hp.
  destruct (Pos.to_uint p) eqn:Hu; [done|..]; rewrite <- Hu in *.
  all: split; [apply occurs_dash_uint|].
  all: rewrite parseInt_uint, uint_value_0, Hp by done; done.
Qed.

Lemma field_text n :
  0 <= n <= 99 →
  occurs "-" (two_digits n) = false
  ∧ parseInt (two_digits n) = Some n
  ∧ padStart 2 "0" (decimal n) = two_digits n.
Proof.
  intros Hn. pose proof (forallb_seqZ _ _ _ n field_texts_ok ltac:(lia)) as H.
  unfold field_text_ok in H. apply andb_true_iff in H as [H H3].
  apply andb_true_iff in H as [H1 H2]. apply negb_true_iff in H1.
  by apply bool_decide_eq_true in H2, H3.
Qed.

Lemma split_whole sep s : occurs sep s = false → split sep s = [s].
Proof.
  induction s as [|c s IH]; simpl; [done|]. intros H.
  apply orb_false_elim in H as [Hc Hs]. apply bool_decide_eq_false in Hc.
  rewrite decide_False by done. by rewrite IH.
Qed.

Lemma split_app sep a b :
  occurs sep a = false → split sep (a +:+ String sep b) = a :: split sep b.
Proof.
  induction a as [|c a IH]; simpl.
  { intros _. by rewrite decide_True. }
  intros H. apply orb_false_elim in H as [Hc Hs].
  apply bool_decide_eq_false in Hc.
  rewrite decide_False by done. by rewrite IH.
Qed.

Lemma days_in_month_bounds y m : 28 <= days_in_month y m <= 31.
Proof.
  unfold days_in_month.
  destruct (m =? 1); [destruct (is_leap y); lia|].
  destruct (_ || _); lia.
Qed.

Lemma next_day_valid d : valid_date d → valid_date (next_day d).
Proof.
  destruct d as [y m dd]. unfold valid_date, next_day. simpl. intros [Hm Hd].
  destruct (dd <? days_in_month y m) eqn:Hlt; simpl.
  { apply Z.ltb_lt in Hlt. lia. }
  destruct (m <? 11) eqn:Hm11; simpl.
  - apply Z.ltb_lt in Hm11. pose proof (days_in_month_bounds y (m + 1)). lia.
  - pose proof (days_in_month_bounds (y + 1) 0). lia.
Qed.

Lemma iter_next_day_valid n d : valid_date d → valid_date (Nat.iter n next_day d).
Proof. induction n; simpl; auto using next_day_valid. Qed.

Lemma iter_next_day_in_month y m (k : nat) :
  1 + Z.of_nat k <= days_in_month y m →
  Nat.iter k next_day (mkDate y m 1) = mkDate y m (1 + Z.of_nat k).
Proof.
  induction k as [|k IH]; intros Hk; [done|].
  simpl Nat.iter. rewrite IH by lia. unfold next_day. simpl.
  rewrite (proj2 (Z.ltb_lt _ _)) by lia. f_equal. lia.
Qed.

(** [new Date(y, m, d)] on the fields of a date is that date, and moving it
    by [setDate(getDate() + n)] steps [n] days forward. *)
Lemma make_day_shift y m dd (n : nat) :
  valid_date (mkDate y m dd) →
  make_day y m (dd + Z.of_nat n) = Nat.iter n next_day (mkDate y m dd).
Proof.
  unfold valid_date. simpl. intros [Hm Hd]. unfold make_day, days_later.
  rewrite Z.div_small, Z.mod_small, Z.add_0_r by lia.
  rewrite (proj2 (Z.leb_le _ _)) by lia.
  replace (Z.to_nat (dd + Z.of_nat n - 1)) with (n + Z.to_nat (dd - 1))%nat by lia.
  rewrite Nat.iter_add. f_equal.
  rewrite iter_next_day_in_month by lia. f_equal. lia.
Qed.

Lemma formatDate_valid d :
  valid_date d → formatDate (Some d) = DD_MM_YYYY d.
Proof.
  intros [Hm Hd]. pose proof (days_in_month_bounds (fullYear d) (month d)).
  unfold formatDate, DD_MM_YYYY. simpl.
  destruct (field_text (date d)) as (_ & _ & ->); [lia|].
  destruct (field_text (month d + 1)) as (_ & _ & ->); [lia|]. done.
Qed.


End WeekName.



(** ** The debounced save *)

Section SaveProperties.

Variable setItem_succeeds : AppData → bool.

Abbreviation saveAppData := (saveAppData setItem_succeeds).
Abbreviation run := (run setItem_succeeds).

Lemma just_saved_tracked doc sent st : just_saved doc sent st → tracked st.
Proof. intros (h & Ht & Hs & _). right. by exists (mkTimer h (clock st + 1000) doc). Qed.

Lemma saveAppData_just_saved doc st :
  tracked st → just_saved doc (upserts st) (saveAppData doc st).
Proof.
  intros Hst. unfold saveAppData.
  set (st1 := if setItem_succeeds doc then _ else st).
  assert (timers st1 = timers st ∧ saveTimeout st1 = saveTimeout st
          ∧ upserts st1 = upserts st ∧ clock st1 = clock st) as (Ht & Hs & Hu & Hc).
  { subst st1. by destruct (setItem_succeeds doc). }
  clearbody st1.
  set (st2 := match saveTimeout st1 with
              | Some h => clearTimeout h st1
              | None => st1
              end).
  assert (timers st2 = [] ∧ upserts st2 = upserts st ∧ clock st2 = clock st)
    as (Ht2 & Hu2 & Hc2).
  { subst st2. destruct Hst as [Hnil|(t & Htm & Hsave)].
    - destruct (saveTimeout st1); simpl; rewrite ?Ht, ?Hnil; done.
    - rewrite Hs, Hsave. simpl. rewrite Ht, Htm.
      rewrite filter_cons_False by (intros H; by apply H). done. }
  clearbody st2. exists (nextHandle st2). unfold setTimeout. simpl.
  by rewrite Ht2, Hu2.
Qed.

Lemma elapse_within_quiet_period doc sent st gap :
  0 <= gap < 1000 → just_saved doc sent st →
  tracked (elapse gap st) ∧ upserts (elapse gap st) = sent.
Proof.
  intros Hgap (h & Ht & Hs & Hu). unfold elapse, tracked. simpl.
  rewrite Ht, Hu, !filter_cons, !filter_nil. simpl.
  repeat case_decide; try lia. simpl.
  split; [|by rewrite app_nil_r]. right. by eexists.
Qed.

Lemma elapse_quiet_period doc sent st quiet :
  1000 <= quiet → just_saved doc sent st →
  upserts (elapse quiet st) = (sent ++ [doc])%list
  ∧ timers (elapse quiet st) = [].
Proof.
  intros Hq (h & Ht & Hs & Hu). unfold elapse. simpl.
  rewrite Ht, Hu, !filter_cons, !filter_nil. simpl.
  repeat case_decide; try lia. done.
Qed.

Lemma run_app es1 es2 st : run (es1 ++ es2) st = run es2 (run es1 st).
Proof. apply foldl_app. Qed.

Lemma last_cons_default {A} (l : list A) x d : List.last (x :: l) d = List.last l x.
Proof.
  revert x d. induction l as [|y l IH]; intros x d; [done|].
  change (List.last (y :: l) d = List.last (y :: l) x). by rewrite !IH.
Qed.

Lemma run_further_saves doc sent rest st :
  Forall (λ gd, 0 <= gd.1 < 1000) rest →
  just_saved doc sent st →
  just_saved (List.last (rest.*2) doc) sent
             (run (rest ≫= λ '(gap, doc), [Elapse gap; Save doc]) st).
Proof.
  intros Hall. revert doc st.
  induction Hall as [|[gap doc'] rest Hgap _ IH]; intros doc st Hst; [done|].
  change (run _ st) with
    (run (rest ≫= λ '(gap, doc), [Elapse gap; Save doc])
         (saveAppData doc' (elapse gap st))).
  assert (just_saved doc' sent (saveAppData doc' (elapse gap st))) as Hnext.
  { destruct (elapse_within_quiet_period doc sent st gap Hgap Hst) as [Htr Hu].
    rewrite <- Hu. by apply saveAppData_just_saved. }
  specialize (IH doc' _ Hnext).
  change (((gap, doc') :: rest).*2) with (doc' :: rest.*2).
  by rewrite last_cons_default.
Qed.

(** C2.  A burst of saves, each less than 1000 ms after the one before and
    starting with no timer pending, sends nothing while it lasts; once
    1000 ms pass without a save, exactly one [upsert] has been made, with
    the document of the last save, and no timer is left to send another. *)
Theorem saveAppData_debounced (st : Store) first rest quiet :
  timers st = [] →
  Forall (λ gd, 0 <= gd.1 < 1000) rest →
  1000 <= quiet →
  upserts (run (burst first rest) st) = upserts st
  ∧ upserts (run (burst first rest ++ [Elapse quiet]) st)
    = (upserts st ++ [List.last (rest.*2) first])%list
  ∧ timers (run (burst first rest ++ [Elapse quiet]) st) = [].
Proof.
  intros Hnil Hgaps Hquiet.
  assert (just_saved (List.last (rest.*2) first) (upserts st)
                     (run (burst first rest) st)) as Hlast.
  { unfold burst. change (run (Save first :: ?es) st)
      with (run es (saveAppData first st)).
    apply run_further_saves; [done|].
    apply saveAppData_just_saved. by left. }
  split.
  - by destruct Hlast as (h & _ & _ & Hu).
  - rewrite run_app.
    change (run [Elapse quiet] ?s) with (elapse quiet s).
    by apply (elapse_quiet_period _ _ _ quiet Hquiet) in Hlast as [-> ->].
Qed.

End SaveProperties.

Lemma saveAppData_debounced_witness :
  let rest := [(200, archived_today); (999, week_named_after_field)] in
  upserts (run (λ _, true) (burst initialData rest) idle_store)
    = upserts idle_store
  ∧ upserts (run (λ _, true) (burst initialData rest ++ [Elapse 1000]) idle_store)
    = (upserts idle_store ++ [List.last (rest.*2) initialData])%list
  ∧ timers (run (λ _, true) (burst initialData rest ++ [Elapse 1000]) idle_store)
    = [].
Proof.
  intros rest.
  apply (saveAppData_debounced (λ _, true) idle_store initialData rest 1000).
  - reflexivity.
  - repeat constructor; simpl; lia.
  - lia.
Defined.

(** * Further properties of the code *)

(** ** The header statistics and the payment toggle *)

Lemma foldl_count {A} (f : A → nat) (l : list A) (a : nat) :
  foldl (λ acc x, acc + f x)%nat a l = (a + sum_list (f <$> l))%nat.
Proof.
  revert a. induction l as [|x l IH]; intros a; csimpl; [lia|].
  rewrite IH. lia.
Qed.

Lemma totalPayers_sum trips :
  totalPayers trips
  = sum_list ((λ t, length (filter (λ p, paid p = true) (participants t))) <$> trips).
Proof. unfold totalPayers. by rewrite foldl_count. Qed.

Lemma totalParticipants_sum trips :
  totalParticipants trips = sum_list ((λ t, length (participants t)) <$> trips).
Proof. unfold totalParticipants. by rewrite foldl_count. Qed.

(** X1.  The header never shows more payers than participants. *)
Theorem totalPayers_le_totalParticipants (trips : list Trip) :
  (totalPayers trips <= totalParticipants trips)%nat.
Proof.
  rewrite totalPayers_sum, totalParticipants_sum.
  induction trips as [|t trips IH]; csimpl; [done|].
  pose proof (length_filter (λ p, paid p = true) (participants t)). lia.
Qed.

(** X2.  Toggling a type never leaves the selection empty and never
    selects a type twice. *)
Theorem toggleTripType_keeps_selection (ty : TripType) (tys : list TripType) :
  NoDup tys →
  NoDup (toggleTripType ty tys) ∧ toggleTripType ty tys ≠ [].
Proof.
  intros Hnd. unfold toggleTripType.
  destruct (decide (ty ∈ tys)) as [Hin|Hnin].
  - destruct (1 <? length tys)%nat eqn:Hlen.
    + split; [by apply NoDup_filter|].
      apply Nat.ltb_lt in Hlen.
      destruct tys as [|a [|b tys]]; simpl in Hlen; [lia..|].
      apply NoDup_cons in Hnd as [Hab _].
      destruct (decide (a = ty)) as [->|Ha].
      * intros Hnil. assert (b ∈ filter (λ x, x ≠ ty) (ty :: b :: tys)) as Hb.
        { apply list_elem_of_filter. split; [|by right; left].
          intros ->. apply Hab. by left. }
        rewrite Hnil in Hb. by apply elem_of_nil in Hb.
      * intros Hnil. assert (a ∈ filter (λ x, x ≠ ty) (a :: b :: tys)) as Hb.
        { apply list_elem_of_filter. split; [done|by left]. }
        rewrite Hnil in Hb. by apply elem_of_nil in Hb.
    + split; [done|]. intros ->. by apply elem_of_nil in Hin.
  - split.
    + apply NoDup_app. split; [done|]. split; [|apply NoDup_singleton].
      intros x Hx ->%list_elem_of_singleton. done.
    + by destruct tys.
Qed.

Lemma toggleTripType_keeps_selection_witness :
  NoDup (toggleTripType Ida [Ida; Volta]) ∧ toggleTripType Ida [Ida; Volta] ≠ [].
Proof.
  apply (toggleTripType_keeps_selection Ida [Ida; Volta]).
  apply (bool_decide_unpack _). vm_compute. exact I.
Defined.

Lemma sum_list_fmap_insert {A} (f : A → nat) (l : list A) i x old :
  l !! i = Some old →
  (sum_list (f <$> <[i:=x]> l) + f old = sum_list (f <$> l) + f x)%nat.
Proof.
  revert i. induction l as [|y l IH]; intros [|i] Hi; simplify_eq/=; [lia|].
  specialize (IH i Hi). csimpl. lia.
Qed.

Lemma length_filter_sum {A} (P : A → Prop) `{∀ x, Decision (P x)} (l : list A) :
  length (filter P l) = sum_list ((λ x, if decide (P x) then 1 else 0)%nat <$> l).
Proof.
  induction l as [|x l IH]; [done|]. rewrite filter_cons. csimpl.
  destruct (decide (P x)); simpl; by rewrite IH.
Qed.

Lemma handleTogglePayment_unfold tIdx pIdx st trips trip person :
  active_trips (data st) = Some trips →
  trips !! tIdx = Some trip → participants trip !! pIdx = Some person →
  handleTogglePayment tIdx pIdx st
  = Some (saveData
            (<["active_trips" :=
                 Trips (<[tIdx :=
                           with_participants
                             (<[pIdx := mkParticipant (id person) (name person)
                                                      (negb (paid person))]>
                                (participants trip)) trip]> trips)]> (data st))
            st).
Proof. intros Ht Hi Hj. unfold handleTogglePayment. by rewrite Ht; simpl; rewrite Hi; simpl; rewrite Hj. Qed.

Lemma handleTogglePayment_inv tIdx pIdx st st' :
  handleTogglePayment tIdx pIdx st = Some st' →
  ∃ trips trip person,
    active_trips (data st) = Some trips
    ∧ trips !! tIdx = Some trip ∧ participants trip !! pIdx = Some person.
Proof.
  unfold handleTogglePayment.
  destruct (active_trips (data st)) as [trips|]; [|done]. simpl.
  destruct (trips !! tIdx) as [trip|] eqn:Hi; [|done]. simpl.
  destruct (participants trip !! pIdx) as [person|] eqn:Hj; [|done].
  intros _. by exists trips, trip, person.
Qed.

Lemma active_trips_insert (d : AppData) trips :
  active_trips (<["active_trips" := Trips trips]> d) = Some trips.
Proof. unfold active_trips. by rewrite lookup_insert_eq. Qed.

Lemma active_trips_lookup (d : AppData) trips :
  active_trips d = Some trips → d !! "active_trips" = Some (Trips trips).
Proof.
  unfold active_trips. destruct (d !! "active_trips") as [[]|]; naive_solver.
Qed.

(** X3.  Toggling the same payment twice gives back the document, record by
    record; both documents are handed to the store. *)
Theorem handleTogglePayment_involutive (tIdx pIdx : nat) (st st1 : App) :
  handleTogglePayment tIdx pIdx st = Some st1 →
  ∃ st2, handleTogglePayment tIdx pIdx st1 = Some st2
    ∧ data st2 = data st
    ∧ saved st2 = (saved st ++ [data st1; data st])%list.
Proof.
  intros H1.
  destruct (handleTogglePayment_inv _ _ _ _ H1) as (trips & trip & person & Ht & Hi & Hj).
  rewrite (handleTogglePayment_unfold _ _ _ _ _ _ Ht Hi Hj) in H1.
  injection H1 as <-.
  pose proof (lookup_lt_Some _ _ _ Hi) as Hli.
  pose proof (lookup_lt_Some _ _ _ Hj) as Hlj.
  erewrite handleTogglePayment_unfold;
    [|apply active_trips_insert
     |by apply list_lookup_insert_eq
     |by apply list_lookup_insert_eq].
  eexists. split; [done|]. simpl.
  rewrite negb_involutive, !list_insert_insert_eq, insert_insert_eq.
  assert (mkParticipant (id person) (name person) (paid person) = person) as ->
    by by destruct person.
  rewrite (list_insert_id (participants trip)) by done.
  assert (∀ ps, with_participants (participants trip) (with_participants ps trip)
                = trip) as -> by by destruct trip.
  rewrite list_insert_id by done.
  rewrite insert_id by by apply active_trips_lookup.
  split; [done|]. by rewrite <- app_assoc.
Qed.

Lemma handleTogglePayment_involutive_witness :
  let st1 := saveData (<["active_trips" :=
                           Trips [with_participants
                                    [mkParticipant "p-1717400000000-ana" "Ana" false;
                                     mkParticipant "p-1717400000001-bruno" "Bruno" false]
                                    monday_trip]]> (data monday_form)) monday_form in
  ∃ st2, handleTogglePayment 0 0 st1 = Some st2
    ∧ data st2 = data monday_form
    ∧ saved st2 = (saved monday_form ++ [data st1; data monday_form])%list.
Proof.
  intros st1. apply (handleTogglePayment_involutive 0 0 monday_form st1).
  reflexivity.
Defined.

(** X4.  A toggle moves the number of payers by exactly one, up when the
    participant had not paid and down when they had, and leaves the number
    of participants as it was. *)
Theorem handleTogglePayment_counts (tIdx pIdx : nat) (st st' : App) :
  handleTogglePayment tIdx pIdx st = Some st' →
  ∃ trips trip person trips',
    active_trips (data st) = Some trips
    ∧ trips !! tIdx = Some trip ∧ participants trip !! pIdx = Some person
    ∧ active_trips (data st') = Some trips'
    ∧ totalParticipants trips' = totalParticipants trips
    ∧ (totalPayers trips' + (if paid person then 1 else 0)
       = totalPayers trips + (if paid person then 0 else 1))%nat.
Proof.
  intros H1.
  destruct (handleTogglePayment_inv _ _ _ _ H1) as (trips & trip & person & Ht & Hi & Hj).
  rewrite (handleTogglePayment_unfold _ _ _ _ _ _ Ht Hi Hj) in H1.
  injection H1 as <-. eexists trips, trip, person, _.
  do 3 (split; [done|]). split; [apply active_trips_insert|].
  rewrite !totalParticipants_sum, !totalPayers_sum.
  set (toggled := mkParticipant _ _ _). split.
  - pose proof (sum_list_fmap_insert (λ t, length (participants t)) trips tIdx
                  (with_participants (<[pIdx:=toggled]> (participants trip)) trip)
                  trip Hi) as Hs.
    simpl in Hs. rewrite length_insert in Hs. lia.
  - pose proof (sum_list_fmap_insert
                  (λ t, length (filter (λ p, paid p = true) (participants t)))
                  trips tIdx
                  (with_participants (<[pIdx:=toggled]> (participants trip)) trip)
                  trip Hi) as Hs.
    simpl in Hs. rewrite !length_filter_sum in Hs.
    pose proof (sum_list_fmap_insert
                  (λ p, if decide (paid p = true) then 1 else 0)%nat
                  (participants trip) pIdx toggled person Hj) as Hp.
    simpl in Hp. subst toggled. simpl in *.
    destruct (paid person); simpl in *; lia.
Qed.

Lemma handleTogglePayment_counts_witness :
  ∃ trips trip person trips',
    active_trips (data monday_form) = Some trips
    ∧ trips !! 0%nat = Some trip ∧ participants trip !! 1%nat = Some person
    ∧ active_trips
        (data (saveData
                 (<["active_trips" :=
                      Trips [with_participants
                               [mkParticipant "p-1717400000000-ana" "Ana" true;
                                mkParticipant "p-1717400000001-bruno" "Bruno" true]
                               monday_trip]]> (data monday_form)) monday_form))
      = Some trips'
    ∧ totalParticipants trips' = totalParticipants trips
    ∧ (totalPayers trips' + (if paid person then 1 else 0)
       = totalPayers trips + (if paid person then 0 else 1))%nat.
Proof.
  apply (handleTogglePayment_counts 0 1 monday_form). reflexivity.
Defined.

(** ** Sorting *)

Lemma insert_sorted_Sorted {A} (cmp : A → A → Z) x (l : list A) :
  total_comparator cmp →
  Sorted (in_order cmp) l → Sorted (in_order cmp) (insert_sorted cmp x l).
Proof.
  intros Htot. induction l as [|y l IH]; intros Hs; simpl.
  { by repeat constructor. }
  destruct (cmp x y <=? 0) eqn:Hxy.
  { constructor; [done|]. constructor. by apply Z.leb_le. }
  apply Z.leb_gt in Hxy.
  assert (in_order cmp y x) as Hyx.
  { destruct (Htot x y); [lia|done]. }
  inversion Hs as [|? ? Hl Hhd]; subst. constructor; [by apply IH|].
  destruct l as [|z l]; simpl; [by constructor|].
  destruct (cmp x z <=? 0); constructor; [done|]. by inversion Hhd.
Qed.

Lemma sort_Sorted {A} (cmp : A → A → Z) (l : list A) :
  total_comparator cmp → Sorted (in_order cmp) (sort cmp l).
Proof.
  intros Htot. induction l as [|x l IH]; simpl; [constructor|].
  by apply insert_sorted_Sorted.
Qed.

Lemma by_name_total (localeCompare : string → string → Z) :
  total_comparator localeCompare → total_comparator (by_name localeCompare).
Proof. intros Htot a b. apply Htot. Qed.

Lemma by_code_total : total_comparator by_code.
Proof.
  intros a b. unfold by_code. rewrite (String.compare_antisym b a).
  destruct (String.compare a b); simpl; lia.
Qed.

(** ** Adding trips: what is saved for each selected direction *)

Section AddTripMore.

Variable localeCompare : string → string → Z.
Variable Date_now : nat → Z.

Abbreviation merged_into' := (merged_into Date_now).

Lemma participants_for_ext find1 find2 names reads :
  (∀ n, find1 n = find2 n) →
  participants_for Date_now find1 names reads
  = participants_for Date_now find2 names reads.
Proof.
  intros Hext. revert reads.
  induction names as [|n names IH]; intros reads; simpl; [done|].
  rewrite <- Hext. destruct (find1 n); by rewrite IH.
Qed.

Section OneType.

Variables (fd : string) (names : list string) (ty : TripType).

Abbreviation step' := (addTripOfType localeCompare Date_now fd names).
Abbreviation wanted' := (λ t : Trip, day t = fd ∧ type t = ty).

Abbreviation settled := (settled Date_now fd names ty).

Lemma addTripOfType_settles (acc : list Trip * nat) :
  total_comparator localeCompare →
  ∃ i t', list_find wanted' (step' acc ty).1 = Some (i, t')
    ∧ Sorted (in_order (by_name localeCompare)) (participants t')
    ∧ settled acc.1 i t'.
Proof.
  intros Htot. destruct acc as [l k]. unfold settled. simpl.
  unfold addTripOfType.
  destruct (list_find wanted' l) as [[i t]|] eqn:Hf.
  - pose proof (participants_for_spec Date_now (participants t) names k) as Hps.
    destruct (participants_for _ _ names k) as [ps k']. simpl in *.
    pose proof Hf as (Hi & [Hd Hty] & Hfirst)%list_find_Some.
    eexists i, _. split; [|split; [|split; [done|]]].
    + apply list_find_insert_Some. right. left.
      split; [done|]. split; [done|].
      split; [by eapply lookup_lt_Some|]. split; [done|]. done.
    + simpl. apply sort_Sorted. by apply by_name_total.
    + repeat split; simpl. exists ps. split; [done|]. apply sort_Permutation.
  - pose proof (participants_for_spec Date_now [] names k) as Hps.
    rewrite (participants_for_ext (find_by_name []) (λ _, None)) in Hps by done.
    destruct (participants_for _ _ names k) as [ps k']. simpl in *.
    eexists (length l), _. split; [|split; [|split; [done|]]].
    + rewrite list_find_app_r by done. simpl.
      by rewrite decide_True by done.
    + simpl. apply sort_Sorted. by apply by_name_total.
    + repeat split; simpl. exists ps. split; [done|]. apply sort_Permutation.
Qed.

Lemma addTripOfType_other_find_None (acc : list Trip * nat) ty' :
  ty' ≠ ty →
  list_find wanted' acc.1 = None →
  list_find wanted' (step' acc ty').1 = None.
Proof.
  destruct acc as [l k]. simpl. intros Hne Hf. unfold addTripOfType.
  rewrite list_find_None in Hf.
  destruct (list_find (λ t0, day t0 = fd ∧ type t0 = ty') l)
    as [[j tj]|] eqn:Hj.
  - destruct (participants_for _ _ names k) as [ps k']. simpl.
    apply list_find_Some in Hj as (Hlj & [_ Htj] & _).
    apply list_find_None, Forall_insert; [done|].
    simpl. intros [_ ?]. congruence.
  - destruct (participants_for _ _ names k) as [ps k']. simpl.
    apply list_find_None, Forall_app. split; [done|].
    constructor; [|constructor]. simpl. intros [_ ?]. congruence.
Qed.

Lemma addTripOfType_length (acc : list Trip * nat) ty' :
  (length acc.1 <= length (step' acc ty').1)%nat.
Proof.
  destruct acc as [l k]. simpl. unfold addTripOfType.
  destruct (list_find _ l) as [[j tj]|];
    destruct (participants_for _ _ names k) as [ps k']; simpl.
  - by rewrite length_insert.
  - rewrite length_app. simpl. lia.
Qed.

Lemma foldl_addTripOfType_found tys (acc : list Trip * nat) i t' :
  ty ∉ tys →
  list_find wanted' acc.1 = Some (i, t') →
  list_find wanted' (foldl step' acc tys).1 = Some (i, t').
Proof.
  revert acc. induction tys as [|ty' tys IH]; intros acc Hnin Hf; [done|].
  simpl. apply not_elem_of_cons in Hnin as [? ?].
  apply IH; [done|]. by apply addTripOfType_other_find.
Qed.

Lemma foldl_addTripOfType_settles tys (acc : list Trip * nat) :
  total_comparator localeCompare →
  NoDup tys → ty ∈ tys →
  ∃ i t', list_find wanted' (foldl step' acc tys).1 = Some (i, t')
    ∧ Sorted (in_order (by_name localeCompare)) (participants t')
    ∧ settled acc.1 i t'.
Proof.
  intros Htot. revert acc.
  induction tys as [|ty' tys IH]; intros acc Hnd Hin.
  { by apply elem_of_nil in Hin. }
  apply NoDup_cons in Hnd as [Hnin Hnd]. simpl.
  destruct (decide (ty' = ty)) as [->|Hne].
  - destruct (addTripOfType_settles acc Htot) as (i & t' & Hf & Hs & Hset).
    exists i, t'. split; [|done]. by apply foldl_addTripOfType_found.
  - apply elem_of_cons in Hin as [?|Hin]; [congruence|].
    destruct (IH (step' acc ty') Hnd Hin) as (i & t' & Hf & Hs & Hset).
    exists i, t'. split; [done|]. split; [done|].
    unfold settled in *.
    destruct (list_find wanted' acc.1) as [[i0 t]|] eqn:Hacc.
    + by rewrite (addTripOfType_other_find _ _ _ _ _ acc ty' i0 t Hne Hacc) in Hset.
    + rewrite (addTripOfType_other_find_None acc ty' Hne Hacc) in Hset.
      destruct Hset as [Hlen Hm]. split; [|done].
      pose proof (addTripOfType_length acc ty'). lia.
Qed.

(** A trip of another day or of a direction that is not being saved stays
    where it is. *)
Lemma addTripOfType_keeps_others (acc : list Trip * nat) ty' k t :
  acc.1 !! k = Some t → day t ≠ fd ∨ type t ≠ ty' →
  (step' acc ty').1 !! k = Some t.
Proof.
  destruct acc as [l r]. simpl. intros Hk Hother. unfold addTripOfType.
  destruct (list_find (λ t0, day t0 = fd ∧ type t0 = ty') l)
    as [[j tj]|] eqn:Hj.
  - destruct (participants_for _ _ names r) as [ps r']. simpl.
    apply list_find_Some in Hj as (Hlj & [Hdj Htj] & _).
    rewrite list_lookup_insert_ne; [done|]. intros ->.
    rewrite Hlj in Hk. injection Hk as ->. destruct Hother; congruence.
  - destruct (participants_for _ _ names r) as [ps r']. simpl.
    by apply lookup_app_l_Some.
Qed.

(** The steps keep day and direction at every place and append only a pair
    that is not there yet. *)
Lemma addTripOfType_keys (acc : list Trip * nat) ty' :
  NoDup (trip_key <$> acc.1) → NoDup (trip_key <$> (step' acc ty').1).
Proof.
  destruct acc as [l r]. simpl. intros Hnd. unfold addTripOfType.
  destruct (list_find (λ t0, day t0 = fd ∧ type t0 = ty') l)
    as [[j tj]|] eqn:Hj.
  - destruct (participants_for _ _ names r) as [ps r']. simpl.
    apply list_find_Some in Hj as (Hlj & _ & _).
    rewrite list_fmap_insert. rewrite list_insert_id; [done|].
    rewrite list_lookup_fmap, Hlj. done.
  - destruct (participants_for _ _ names r) as [ps r']. simpl.
    rewrite fmap_app. apply NoDup_app. split; [done|].
    split; [|apply NoDup_singleton].
    intros key Hkey ->%list_elem_of_singleton.
    apply list_elem_of_fmap in Hkey as (t & Heq & Ht).
    rewrite list_find_None, Forall_forall in Hj.
    apply (Hj t Ht). unfold trip_key in Heq. simpl in Heq.
    by injection Heq as <- <-.
Qed.

End OneType.

Lemma handleAddTrip_unfold (st : App) trips :
  newTripDate st ≠ "" → newTripTypes st ≠ [] →
  targetNames localeCompare st ≠ [] →
  active_trips (data st) = Some trips →
  let done :=
    foldl (addTripOfType localeCompare Date_now (formattedDate (newTripDate st))
                         (targetNames localeCompare st))
          (trips, clockReads st) (newTripTypes st) in
  ∃ st', handleAddTrip localeCompare Date_now st = Some st'
    ∧ data st' = <["active_trips" := Trips done.1]> (data st)
    ∧ saved st' = (saved st ++ [data st'])%list
    ∧ newTripTypes st' = newTripTypes st
    ∧ newTripDate st' = "" ∧ newParticipantInput st' = ""
    ∧ selectedExistingNames st' = [] ∧ modalOpen st' = ModalNone.
Proof.
  intros Hd Hty Hn Ht done. unfold handleAddTrip.
  rewrite !decide_False by done. rewrite Ht. simpl. subst done.
  destruct (foldl _ _ _) as [l reads]. by eexists.
Qed.

Lemma merged_into_fresh fd ty names t' p' :
  merged_into' (mkTrip fd None ty []) names t' →
  p' ∈ participants t' → paid p' = false.
Proof.
  intros Hm Hp. destruct (merged_into_member Date_now _ _ _ _ Hm Hp) as [_ Hfor].
  destruct Hfor as [Hf|(_ & k & ->)]; [|done].
  by apply find_by_name_Some in Hf as [?%elem_of_nil _].
Qed.

(** X5.  When [handleAddTrip] saves, every selected direction has a trip
    for the day: the first trip of that day and direction carries exactly
    the target names, in the order of the comparator, and when there was
    none before it stands after the trips that were there, without a time
    and with nobody marked as paid. *)
Theorem handleAddTrip_settles (st : App) trips ty :
  total_comparator localeCompare →
  newTripDate st ≠ "" → NoDup (newTripTypes st) → ty ∈ newTripTypes st →
  targetNames localeCompare st ≠ [] →
  active_trips (data st) = Some trips →
  let fd := formattedDate (newTripDate st) in
  ∃ st' trips' i t',
    handleAddTrip localeCompare Date_now st = Some st'
    ∧ active_trips (data st') = Some trips'
    ∧ list_find (λ t, day t = fd ∧ type t = ty) trips' = Some (i, t')
    ∧ name <$> participants t' ≡ₚ targetNames localeCompare st
    ∧ Sorted (in_order (by_name localeCompare)) (participants t')
    ∧ (list_find (λ t, day t = fd ∧ type t = ty) trips = None →
       (length trips <= i)%nat ∧ time t' = None
       ∧ Forall (λ p, paid p = false) (participants t')).
Proof.
  intros Htot Hd Hnd Hty Hn Ht fd.
  assert (newTripTypes st ≠ []) as Hne.
  { intros Hnil. rewrite Hnil in Hty. by apply elem_of_nil in Hty. }
  destruct (handleAddTrip_unfold st trips Hd Hne Hn Ht) as (st' & Hrun & Hdata & _).
  destruct (foldl_addTripOfType_settles fd (targetNames localeCompare st) ty
              (newTripTypes st) (trips, clockReads st) Htot Hnd Hty)
    as (i & t' & Hf & Hs & Hset).
  eexists st', _, i, t'. split; [done|].
  split; [rewrite Hdata; apply active_trips_insert|].
  split; [done|]. unfold settled in Hset. simpl in Hset.
  split.
  { destruct (list_find _ trips) as [[i0 t]|]; destruct Hset as [_ Hm];
      by eapply merged_into_names. }
  split; [done|]. intros Hnone. fold fd in Hset. rewrite Hnone in Hset.
  destruct Hset as [Hlen Hm]. split; [done|].
  split; [by destruct Hm as (_ & -> & _)|].
  apply Forall_forall. intros p Hp. by eapply merged_into_fresh.
Qed.

(** X6.  [handleAddTrip] leaves alone what the form does not name: the trips
    of other days and of directions that are not selected keep their place
    and their contents, no trip is removed, and every key of the document
    other than [active_trips] keeps its contents. *)
Theorem handleAddTrip_frame (st st' : App) trips :
  active_trips (data st) = Some trips →
  handleAddTrip localeCompare Date_now st = Some st' →
  ∃ trips', active_trips (data st') = Some trips'
    ∧ (length trips <= length trips')%nat
    ∧ (∀ k t, trips !! k = Some t →
              day t ≠ formattedDate (newTripDate st) ∨ type t ∉ newTripTypes st →
              trips' !! k = Some t)
    ∧ (∀ key, key ≠ "active_trips" → data st' !! key = data st !! key).
Proof.
  intros Ht Hrun.
  assert (Hkeep : ∀ tys (acc : list Trip * nat) k t,
            acc.1 !! k = Some t →
            day t ≠ formattedDate (newTripDate st) ∨ type t ∉ tys →
            (foldl (addTripOfType localeCompare Date_now
                      (formattedDate (newTripDate st))
                      (targetNames localeCompare st)) acc tys).1 !! k = Some t).
  { induction tys as [|ty' tys IH]; intros acc k t Hk Hother; [done|].
    simpl. apply IH.
    - apply addTripOfType_keeps_others; [done|].
      destruct Hother as [?|Hnin]; [by left|right].
      intros Heq. apply Hnin. rewrite Heq. by left.
    - destruct Hother as [?|Hnin]; [by left|right].
      intros Hin. apply Hnin. by right. }
  assert (Hlen : ∀ tys (acc : list Trip * nat),
            (length acc.1 <=
             length (foldl (addTripOfType localeCompare Date_now
                              (formattedDate (newTripDate st))
                              (targetNames localeCompare st)) acc tys).1)%nat).
  { induction tys as [|ty' tys IH]; intros acc; [done|]. simpl.
    etrans; [|apply IH]. apply addTripOfType_length. }
  unfold handleAddTrip in Hrun.
  destruct (decide (newTripDate st = "")).
  { injection Hrun as <-. exists trips. simpl. eauto. }
  destruct (decide (newTripTypes st = [])).
  { injection Hrun as <-. exists trips. simpl. eauto. }
  destruct (decide (targetNames localeCompare st = [])).
  { injection Hrun as <-. exists trips. simpl. eauto. }
  rewrite Ht in Hrun. simpl in Hrun.
  specialize (Hkeep (newTripTypes st) (trips, clockReads st)).
  specialize (Hlen (newTripTypes st) (trips, clockReads st)).
  destruct (foldl _ _ _) as [l reads]. injection Hrun as <-. simpl in *.
  exists l. split; [apply active_trips_insert|]. split; [done|].
  split; [done|]. intros key Hkey. by rewrite lookup_insert_ne.
Qed.

(** X7.  If no two trips of the week share day and direction, the same
    holds after [handleAddTrip]. *)
Theorem handleAddTrip_keeps_keys_apart (st st' : App) trips :
  active_trips (data st) = Some trips →
  NoDup (trip_key <$> trips) →
  handleAddTrip localeCompare Date_now st = Some st' →
  ∃ trips', active_trips (data st') = Some trips'
    ∧ NoDup (trip_key <$> trips').
Proof.
  intros Ht Hnd Hrun.
  assert (Hkeys : ∀ tys (acc : list Trip * nat),
            NoDup (trip_key <$> acc.1) →
            NoDup (trip_key <$>
                   (foldl (addTripOfType localeCompare Date_now
                             (formattedDate (newTripDate st))
                             (targetNames localeCompare st)) acc tys).1)).
  { induction tys as [|ty' tys IH]; intros acc Hacc; [done|]. simpl.
    apply IH. by apply addTripOfType_keys. }
  unfold handleAddTrip in Hrun.
  destruct (decide (newTripDate st = "")).
  { injection Hrun as <-. exists trips. simpl. eauto. }
  destruct (decide (newTripTypes st = [])).
  { injection Hrun as <-. exists trips. simpl. eauto. }
  destruct (decide (targetNames localeCompare st = [])).
  { injection Hrun as <-. exists trips. simpl. eauto. }
  rewrite Ht in Hrun. simpl in Hrun.
  specialize (Hkeys (newTripTypes st) (trips, clockReads st) Hnd).
  destruct (foldl _ _ _) as [l reads]. injection Hrun as <-. simpl in *.
  exists l. split; [apply active_trips_insert|done].
Qed.

End AddTripMore.

Lemma handleAddTrip_settles_witness :
  let st := monday_form in
  let fd := formattedDate (newTripDate st) in
  ∃ st' trips' i t',
    handleAddTrip by_code Z.of_nat st = Some st'
    ∧ active_trips (data st') = Some trips'
    ∧ list_find (λ t, day t = fd ∧ type t = Ida) trips' = Some (i, t')
    ∧ name <$> participants t' ≡ₚ targetNames by_code st
    ∧ Sorted (in_order (by_name by_code)) (participants t')
    ∧ (list_find (λ t, day t = fd ∧ type t = Ida) [monday_trip] = None →
       (length [monday_trip] <= i)%nat ∧ time t' = None
       ∧ Forall (λ p, paid p = false) (participants t')).
Proof.
  intros st fd.
  apply (handleAddTrip_settles by_code Z.of_nat st [monday_trip] Ida).
  - exact by_code_total.
  - discriminate.
  - apply NoDup_singleton.
  - apply list_elem_of_singleton. reflexivity.
  - discriminate.
  - reflexivity.
Defined.

Lemma handleAddTrip_frame_witness :
  let st := monday_form in
  let st' := default st (handleAddTrip by_code Z.of_nat st) in
  ∃ trips', active_trips (data st') = Some trips'
    ∧ (length [monday_trip] <= length trips')%nat
    ∧ (∀ k t, [monday_trip] !! k = Some t →
              day t ≠ formattedDate (newTripDate st) ∨ type t ∉ newTripTypes st →
              trips' !! k = Some t)
    ∧ (∀ key, key ≠ "active_trips" → data st' !! key = data st !! key).
Proof.
  intros st st'.
  apply (handleAddTrip_frame by_code Z.of_nat st st' [monday_trip]); reflexivity.
Defined.

Lemma handleAddTrip_keeps_keys_apart_witness :
  let st := monday_form in
  let st' := default st (handleAddTrip by_code Z.of_nat st) in
  ∃ trips', active_trips (data st') = Some trips'
    ∧ NoDup (trip_key <$> trips').
Proof.
  intros st st'.
  apply (handleAddTrip_keeps_keys_apart by_code Z.of_nat st st' [monday_trip]).
  - reflexivity.
  - apply NoDup_singleton.
  - reflexivity.
Defined.

(** ** Adding trips: saving the same names again *)

Section AddTripAgain.

Variable localeCompare : string → string → Z.
Variable Date_now : nat → Z.

Lemma NoDup_fmap_eq {A B} (f : A → B) (l : list A) x y :
  NoDup (f <$> l) → x ∈ l → y ∈ l → f x = f y → x = y.
Proof.
  induction l as [|z l IH]; intros Hnd Hx Hy Heq.
  { by apply elem_of_nil in Hx. }
  rewrite fmap_cons in Hnd. apply NoDup_cons in Hnd as [Hz Hnd].
  apply elem_of_cons in Hx as [->|Hx]; apply elem_of_cons in Hy as [->|Hy].
  - done.
  - exfalso. apply Hz. rewrite Heq. by apply list_elem_of_fmap_2.
  - exfalso. apply Hz. rewrite <- Heq. by apply list_elem_of_fmap_2.
  - by apply IH.
Qed.

Lemma find_by_name_unique ps p :
  NoDup (name <$> ps) → p ∈ ps → find_by_name ps (name p) = Some p.
Proof.
  intros Hnd Hp.
  destruct (list_find_elem_of (λ q, name q = name p) ps p Hp eq_refl)
    as [[i q] Hf].
  unfold find_by_name. rewrite Hf. simpl. f_equal.
  apply list_find_Some in Hf as (Hi & Hn & _).
  eapply NoDup_fmap_eq; [done| |done|done]. by eapply list_elem_of_lookup_2.
Qed.

Lemma participants_for_reuse find names ps reads :
  Forall2 (λ n p, find n = Some p) names ps →
  participants_for Date_now find names reads = (ps, reads).
Proof.
  induction 1 as [|n p names ps Hn _ IH]; simpl; [done|].
  by rewrite Hn, IH.
Qed.

(** Looking the names up again, on any rearrangement of what was built for
    them, finds what was built. *)
Lemma participants_found_again old names ps0 ps :
  NoDup names →
  Forall2 (participant_for Date_now old) names ps0 → ps ≡ₚ ps0 →
  Forall2 (λ n p, find_by_name ps n = Some p) names ps0.
Proof.
  intros Hnd Hall Hperm.
  assert (name <$> ps0 = names) as Hnames.
  { clear Hnd Hperm. induction Hall as [|n p names ps0 Hp _ IH]; [done|].
    csimpl. by rewrite (participant_for_name Date_now _ _ _ Hp), IH. }
  assert (NoDup (name <$> ps)) as Hnd' by by rewrite Hperm, Hnames.
  assert (∀ p, p ∈ ps0 → find_by_name ps (name p) = Some p) as Hfind.
  { intros p Hp. apply find_by_name_unique; [done|]. by rewrite Hperm. }
  clear Hnd Hperm Hnd' Hnames.
  induction Hall as [|n p names ps0 Hp _ IH]; constructor.
  - rewrite <- (participant_for_name Date_now _ _ _ Hp). apply Hfind. by left.
  - apply IH. intros q Hq. apply Hfind. by right.
Qed.

(** X8.  The merge is idempotent: saving the same names for the same day
    and direction a second time changes nothing, neither a record nor the
    order, and makes no new participant. *)
Theorem addTripOfType_idempotent (fd : string) (names : list string)
    (ty : TripType) (acc : list Trip * nat) :
  NoDup names →
  addTripOfType localeCompare Date_now fd names
    (addTripOfType localeCompare Date_now fd names acc ty) ty
  = addTripOfType localeCompare Date_now fd names acc ty.
Proof.
  intros Hnd. destruct acc as [l k]. unfold addTripOfType at 2 3.
  destruct (list_find (λ t, day t = fd ∧ type t = ty) l) as [[i t]|] eqn:Hf.
  - pose proof (participants_for_spec Date_now (participants t) names k) as Hps.
    destruct (participants_for _ _ names k) as [ps0 k']. simpl in Hps.
    pose proof Hf as (Hi & [Hd Hty] & Hfirst)%list_find_Some.
    unfold addTripOfType.
    assert (list_find (λ t0, day t0 = fd ∧ type t0 = ty)
              (<[i := mkTrip (day t) (time t) (type t)
                             (sort (by_name localeCompare) ps0)]> l)
            = Some (i, mkTrip (day t) (time t) (type t)
                              (sort (by_name localeCompare) ps0))) as ->.
    { apply list_find_insert_Some. right. left.
      split; [done|]. split; [done|].
      split; [by eapply lookup_lt_Some|]. split; [done|]. done. }
    simpl.
    rewrite (participants_for_reuse _ names ps0 k').
    2:{ eapply participants_found_again; [done..|]. apply sort_Permutation. }
    by rewrite list_insert_insert_eq.
  - pose proof (participants_for_spec Date_now [] names k) as Hps.
    rewrite (participants_for_ext Date_now (find_by_name []) (λ _, None))
      in Hps by done.
    destruct (participants_for _ _ names k) as [ps0 k']. simpl in Hps.
    unfold addTripOfType.
    assert (list_find (λ t0, day t0 = fd ∧ type t0 = ty)
              (l ++ [mkTrip fd None ty (sort (by_name localeCompare) ps0)])
            = Some (length l, mkTrip fd None ty (sort (by_name localeCompare) ps0)))
      as ->.
    { rewrite list_find_app_r by done. simpl. by rewrite decide_True by done. }
    simpl.
    rewrite (participants_for_reuse _ names ps0 k').
    2:{ eapply participants_found_again; [done..|]. apply sort_Permutation. }
    f_equal. rewrite insert_app_r_alt by done.
    by rewrite Nat.sub_diag.
Qed.

End AddTripAgain.

Lemma addTripOfType_idempotent_witness :
  addTripOfType by_code Z.of_nat "Segunda-feira (03/06)" ["Bruno"; "Carla"]
    (addTripOfType by_code Z.of_nat "Segunda-feira (03/06)" ["Bruno"; "Carla"]
       ([monday_trip], 0%nat) Ida) Ida
  = addTripOfType by_code Z.of_nat "Segunda-feira (03/06)" ["Bruno"; "Carla"]
      ([monday_trip], 0%nat) Ida.
Proof.
  apply (addTripOfType_idempotent by_code Z.of_nat).
  apply (bool_decide_unpack _). vm_compute. exact I.
Defined.

(** ** The dialog opened on a trip that exists, and saved as it is *)

Section Reopen.

Variable localeCompare : string → string → Z.
Variable Date_now : nat → Z.

Lemma Set_of_NoDup (l : list string) : NoDup l → Set_of l = l.
Proof.
  induction 1 as [|x l Hx _ IH]; simpl; [done|].
  rewrite IH. f_equal. clear IH.
  induction l as [|y l IH]; [done|].
  rewrite filter_cons. apply not_elem_of_cons in Hx as [Hxy Hx].
  rewrite decide_True by done. f_equal. by apply IH.
Qed.

Lemma Set_of_elem_of (l : list string) x : x ∈ Set_of l ↔ x ∈ l.
Proof.
  induction l as [|y l IH]; simpl; [done|].
  rewrite !elem_of_cons, list_elem_of_filter, IH.
  destruct (decide (x = y)) as [->|Hxy].
  - split; intros _; by left.
  - split.
    + intros [?|[_ ?]]; [by left|by right].
    + intros [?|?]; [by left|by right].
Qed.

Lemma Set_of_nil_inv (l : list string) : Set_of l = [] → l = [].
Proof. by destruct l. Qed.

Lemma sort_Sorted_id {A} (cmp : A → A → Z) (l : list A) :
  Sorted (in_order cmp) l → sort cmp l = l.
Proof.
  induction 1 as [|x l _ IH Hhd]; [done|].
  unfold sort in *. simpl. rewrite IH.
  destruct Hhd as [|y l Hxy]; [done|]. simpl.
  unfold in_order in Hxy. by rewrite (proj2 (Z.leb_le _ _) Hxy).
Qed.

Lemma Sorted_names ps :
  Sorted (in_order (by_name localeCompare)) ps →
  Sorted (in_order localeCompare) (name <$> ps).
Proof.
  induction 1 as [|p ps _ IH Hhd]; csimpl; constructor; [done|].
  destruct Hhd; csimpl; by constructor.
Qed.

Lemma participants_for_all_found find names reads :
  Forall (λ n, is_Some (find n)) names →
  participants_for Date_now find names reads = (omap find names, reads).
Proof.
  induction 1 as [|n names [p Hn] _ IH]; simpl; [done|].
  by rewrite Hn, IH.
Qed.

Lemma omap_find_by_name ps qs :
  NoDup (name <$> ps) → qs ⊆ ps →
  omap (find_by_name ps) (name <$> qs) = qs.
Proof.
  intros Hnd. induction qs as [|q qs IH]; intros Hsub; [done|].
  csimpl. rewrite find_by_name_unique; [|done|apply Hsub; by left].
  simpl. f_equal. apply IH. intros x Hx. apply Hsub. by right.
Qed.

(** X9.  The dialog opened on a trip that exists, for one direction and with
    nothing typed, checks the names of that trip; saving it then keeps every
    participant record with its id and its payment mark, reads no clock, and
    leaves the other trips alone.  When the participants were in the order
    of the comparator, the document does not change at all. *)
Theorem handleAddTrip_reopened (st : App) (editing : bool) trips ty i t :
  modalOpen st = ModalAddTrip → newTripDate st ≠ "" →
  newTripTypes st = [ty] →
  manualNames (newParticipantInput st) = [] →
  active_trips (data st) = Some trips →
  list_find (λ t, day t = formattedDate (newTripDate st) ∧ type t = ty) trips
    = Some (i, t) →
  participants t ≠ [] → NoDup (name <$> participants t) →
  ∃ st1 st2 t',
    existingTripEffect editing st = Some (true, st1)
    ∧ handleAddTrip localeCompare Date_now st1 = Some st2
    ∧ active_trips (data st2) = Some (<[i := t']> trips)
    ∧ day t' = day t ∧ time t' = time t ∧ type t' = type t
    ∧ participants t' ≡ₚ participants t
    ∧ clockReads st2 = clockReads st
    ∧ (Sorted (in_order (by_name localeCompare)) (participants t) →
       data st2 = data st).
Proof.
  intros Hm Hd Hty Hmanual Ht Hf Hne Hnd.
  set (fd := formattedDate (newTripDate st)) in *.
  set (names := sort localeCompare (name <$> participants t)).
  set (ps0 := omap (find_by_name (participants t)) names).
  set (t' := mkTrip (day t) (time t) (type t) (sort (by_name localeCompare) ps0)).
  assert (names ≡ₚ name <$> participants t) as Hnames by apply sort_Permutation.
  assert (ps0 ≡ₚ participants t) as Hps0.
  { unfold ps0. rewrite Hnames. by rewrite omap_find_by_name. }
  exists (with_selectedExistingNames (Set_of (name <$> participants t)) st).
  eexists. exists t'.
  split.
  { unfold existingTripEffect. rewrite Hm, Ht.
    rewrite bool_decide_true by done. rewrite bool_decide_false by done.
    simpl. fold fd.
    rewrite (list_find_ext _ (λ t0, day t0 = fd ∧ type t0 = ty)), Hf; [done|].
    intros x. rewrite Hty, list_elem_of_singleton. done. }
  assert (targetNames localeCompare
            (with_selectedExistingNames (Set_of (name <$> participants t)) st)
          = names) as Htarget.
  { unfold targetNames. simpl. rewrite Hmanual, app_nil_r.
    rewrite (Set_of_NoDup (name <$> participants t)) by done.
    by rewrite Set_of_NoDup by done. }
  assert (names ≠ []) as Hnames_ne.
  { intros Hnil. apply sort_nil_inv in Hnil.
    apply fmap_nil_inv in Hnil. done. }
  unfold handleAddTrip. rewrite Htarget. simpl.
  rewrite !decide_False by (done || by rewrite Hty).
  rewrite Ht, Hty. simpl. fold fd. rewrite Hf.
  rewrite (participants_for_all_found (find_by_name (participants t)) names).
  2:{ apply Forall_forall. intros n Hn. rewrite Hnames in Hn.
      apply list_elem_of_fmap in Hn as (p & -> & Hp).
      rewrite find_by_name_unique by done. by eexists. }
  fold ps0. simpl.
  split; [reflexivity|]. split.
  { apply active_trips_insert. }
  do 3 (split; [done|]). split.
  { simpl. by rewrite sort_Permutation. }
  split; [done|].
  intros Hsorted.
  assert (names = name <$> participants t) as Hn_eq.
  { apply sort_Sorted_id. by apply Sorted_names. }
  assert (ps0 = participants t) as Hp_eq.
  { unfold ps0. rewrite Hn_eq. by apply omap_find_by_name. }
  rewrite Hp_eq, (sort_Sorted_id _ _ Hsorted).
  assert (mkTrip (day t) (time t) (type t) (participants t) = t) as ->
    by by destruct t.
  apply list_find_Some in Hf as (Hi & _).
  rewrite list_insert_id by done. simpl.
  apply map_eq. intros k. destruct (decide (k = "active_trips")) as [->|Hk].
  - rewrite lookup_insert_eq. unfold active_trips in Ht.
    destruct (data st !! "active_trips") as [[?|?]|]; by simplify_eq.
  - by rewrite lookup_insert_ne.
Qed.

End Reopen.

Lemma handleAddTrip_reopened_witness :
  let st := monday_reopened in
  ∃ st1 st2 t',
    existingTripEffect false st = Some (true, st1)
    ∧ handleAddTrip by_code Z.of_nat st1 = Some st2
    ∧ active_trips (data st2) = Some (<[0%nat := t']> [monday_trip])
    ∧ day t' = day monday_trip ∧ time t' = time monday_trip
    ∧ type t' = type monday_trip
    ∧ participants t' ≡ₚ participants monday_trip
    ∧ clockReads st2 = clockReads st
    ∧ (Sorted (in_order (by_name by_code)) (participants monday_trip) →
       data st2 = data st).
Proof.
  intros st.
  apply (handleAddTrip_reopened by_code Z.of_nat st false [monday_trip] Ida
           0%nat monday_trip).
  - reflexivity.
  - discriminate.
  - reflexivity.
  - reflexivity.
  - reflexivity.
  - reflexivity.
  - discriminate.
  - apply (bool_decide_unpack _). vm_compute. exact I.
Defined.

(** ** loadAppData *)

Section LoadProperties.

Variable JSON_parse : string → option value.
Variable JSON_stringify : value → string.

Abbreviation load := (loadAppData JSON_parse JSON_stringify).

Lemma sanitized_truthy v : sanitized v → truthy v = true.
Proof. intros [Ho _]. by apply truthy_object. Qed.

Lemma load_remote_sanitized w doc c ins :
  load_remote JSON_parse JSON_stringify w = (Some doc, c, ins) → sanitized doc.
Proof.
  unfold load_remote. destruct (remote w) as [|row error]; [done|].
  destruct (_ && _).
  - destruct (sanitizeData _ _) as [r|] eqn:Hs; [|done].
    intros [= <- _ _]. by eapply sanitizeData_sanitized.
  - destruct (_ && _); [|done].
    destruct (insert_throws w); [done|].
    intros [= <- _ _]. apply emptyDocument_sanitized.
Qed.

Lemma load_local_sanitized w doc :
  load_local JSON_parse w = Some doc → sanitized doc.
Proof.
  unfold load_local. destruct (local w) as [|[stored|]]; try done.
  destruct (bool_decide _); [done|].
  destruct (JSON_parse stored) as [parsed|]; [|done].
  destruct (sanitizeData _ _) as [r|] eqn:Hs; [|done].
  intros [= <-]. by eapply sanitizeData_sanitized.
Qed.

(** X10.  Whatever the remote store and the local store answer or throw,
    [loadAppData] returns an object whose [active_trips] and
    [currentWeekName] are truthy. *)
Theorem loadAppData_sanitized (w : Backend) : sanitized (result (load w)).
Proof.
  unfold loadAppData.
  destruct (load_remote _ _ w) as [[[doc|] c] ins] eqn:Hr; simpl.
  - apply load_remote_sanitized in Hr.
    rewrite (sanitized_truthy doc Hr). simpl.
    by rewrite (sanitized_truthy doc Hr).
  - destruct (load_local _ w) as [doc|] eqn:Hl; simpl.
    + apply load_local_sanitized in Hl.
      by rewrite (sanitized_truthy doc Hl).
    + apply emptyDocument_sanitized.
Qed.

(** X11.  What [loadAppData] writes agrees with what it returns: a text put
    in the local cache is the returned document serialised, and it is put
    there only when the remote row was read; an insert is issued only when
    the remote store answered with no row and no error, its payload is the
    empty document, nothing is cached then, and unless the insert throws
    the empty document is returned, whatever the local cache holds. *)
Theorem loadAppData_effects (w : Backend) :
  (∀ text, cached (load w) = Some text →
     text = JSON_stringify (result (load w))
     ∧ ∃ payload error, remote w = ReadReturns (Some payload) error
                        ∧ truthy payload = true)
  ∧ (∀ payload, inserted (load w) = Some payload →
       payload = emptyDocument ∧ cached (load w) = None
       ∧ remote w = ReadReturns None false
       ∧ (insert_throws w = false → result (load w) = emptyDocument)).
Proof.
  unfold loadAppData, load_remote.
  destruct (remote w) as [|[payload|] error]; simpl.
  - split; intros ? [=].
  - destruct (truthy payload) eqn:Hp; simpl.
    + destruct (sanitizeData JSON_parse payload) as [doc|] eqn:Hs; simpl.
      * pose proof (sanitizeData_sanitized _ _ _ Hs) as Hdoc.
        rewrite (sanitized_truthy doc Hdoc). simpl.
        rewrite (sanitized_truthy doc Hdoc).
        split; [|intros ? [=]].
        destruct (setItem_throws w); intros text [= <-].
        split; [done|]. by exists payload, error.
      * split; intros ? [=].
    + destruct (load_local _ w); simpl; split; intros ? [=].
  - destruct error; simpl.
    + destruct (load_local _ w); simpl; split; intros ? [=].
    + destruct (insert_throws w) eqn:Hi; simpl.
      * split; [intros ? [=]|]. intros ? [= <-]. by repeat split.
      * split; [intros ? [=]|]. intros ? [= <-]. by repeat split.
Qed.

End LoadProperties.

(** ** Changing week *)

Section Weeks.

Variable Date_now : nat → Z.
Variable today : string.

Lemma currentWeekName_lookup (d : AppData) name :
  currentWeekName d = Some name → d !! "currentWeekName" = Some (Text name).
Proof.
  unfold currentWeekName.
  destruct (d !! "currentWeekName") as [[?|?]|]; by intros [= ->].
Qed.

Lemma rotate_unfold (st : App) trips current :
  active_trips (data st) = Some trips →
  currentWeekName (data st) = Some current →
  let key := archive_key today (Date_now (clockReads st)) (data st) current in
  rotate Date_now today st =
    if rotates (data st) trips current
    then Some (Some key, archived_under key trips (data st),
               if decide (key = current) then clockReads st
               else S (clockReads st))
    else Some (None, data st, clockReads st).
Proof.
  intros Ht Hn key. unfold rotate. rewrite Hn. simpl.
  rewrite (autoArchiveCurrent_unfold _ _ _ trips current) by done.
  unfold rotates. by destruct (_ && _).
Qed.

Lemma holds_false_not_field (d : AppData) trips name :
  active_trips d = Some trips → currentWeekName d = Some name →
  holds d name = false → name ≠ "active_trips" ∧ name ≠ "currentWeekName".
Proof.
  intros Ht Hn Hh. split; intros ->.
  - by rewrite (holds_active_trips d trips) in Hh.
  - by rewrite holds_currentWeekName in Hh.
Qed.

(** Selecting an archived week while the active one has a name of its own
    that no slot bears: the active week goes to the slot of its name and
    the selected one leaves its slot. *)
Lemma handleSelectWeek_swap (st : App) A B trips ts :
  currentWeekName (data st) = Some A → active_trips (data st) = Some trips →
  A ≠ DEFAULT_WEEK_NAME → holds (data st) A = false →
  B ≠ A → B ≠ DEFAULT_WEEK_NAME → B ≠ "active_trips" → B ≠ "currentWeekName" →
  data st !! B = Some (Trips ts) →
  ∃ st', handleSelectWeek Date_now today B st = Some st'
    ∧ data st' = <["currentWeekName" := Text B]>
                   (delete B (<["active_trips" := Trips ts]>
                                (archived_under A trips (data st))))
    ∧ saved st' = (saved st ++ [data st'])%list
    ∧ clockReads st' = clockReads st.
Proof.
  intros Hn Ht HA Hh HBA HB Ha Hw Hslot.
  destruct (holds_false_not_field _ _ _ Ht Hn Hh) as [HAa HAw].
  unfold handleSelectWeek. rewrite Hn. simpl.
  rewrite decide_False by done.
  rewrite (rotate_unfold st trips A) by done.
  assert (rotates (data st) trips A = true) as ->.
  { unfold rotates. rewrite Hh.
    rewrite (bool_decide_false (A = DEFAULT_WEEK_NAME)) by done.
    by rewrite andb_false_r. }
  assert (archive_key today (Date_now (clockReads st)) (data st) A = A) as ->.
  { unfold archive_key. rewrite Hh.
    by rewrite (bool_decide_false (A = DEFAULT_WEEK_NAME)) by done. }
  simpl. destruct (decide (A = A)); [|done].
  destruct (decide (B = DEFAULT_WEEK_NAME)); [done|].
  assert (stored_week (archived_under A trips (data st)) B = Trips ts) as ->.
  { unfold stored_week, archived_under.
    rewrite !lookup_insert_ne by done. by rewrite Hslot. }
  eexists. split; [done|]. simpl. done.
Qed.



End Weeks.



(** ** Starting and renaming a week *)

Section NewWeek.

Variable Date_now : nat → Z.
Variable today : string.

Lemma holds_archived_under (d : AppData) key trips k :
  k ≠ "active_trips" → k ≠ "currentWeekName" → k ≠ key →
  holds (archived_under key trips d) k = holds d k.
Proof.
  intros. unfold holds, archived_under. by rewrite !lookup_insert_ne by done.
Qed.


(** X15.  A week is not started over one that exists: when the document
    holds the new name, or the new name is that of the active week (the
    sentinel apart), the handler saves nothing, leaves the document as it
    is, keeps the dialog open and reports that the week exists. *)
Theorem handleCreateNewWeek_refuses (form : WeekForm) (st : App)
    newName current trips :
  newWeekDate form ≠ "" →
  generateWeekName (newWeekDate form) = Some newName →
  currentWeekName (data st) = Some current →
  active_trips (data st) = Some trips →
  holds (data st) newName = true
    ∨ (newName = current ∧ current ≠ DEFAULT_WEEK_NAME) →
  ∃ st', handleCreateNewWeek Date_now today form st
           = Some (mkWeekForm (newWeekDate form) (week_exists_message newName), st')
    ∧ data st' = data st ∧ saved st' = saved st
    ∧ modalOpen st' = modalOpen st.
Proof.
  intros Hdate Hname Hn Ht Hex.
  set (key := archive_key today (Date_now (clockReads st)) (data st) current).
  unfold handleCreateNewWeek. rewrite decide_False by done. rewrite Hname.
  rewrite (rotate_unfold Date_now today st trips current) by done. fold key.
  assert (holds (if rotates (data st) trips current
                 then archived_under key trips (data st) else data st) newName
          = true) as Hheld.
  { assert (∀ d, holds (archived_under key trips d) key = true) as Hk.
    { intros d. unfold holds, archived_under.
      destruct (decide (key = "currentWeekName")) as [->|?];
        [by rewrite lookup_insert_eq|].
      rewrite lookup_insert_ne by done.
      destruct (decide (key = "active_trips")) as [->|?];
        [by rewrite lookup_insert_eq|].
      rewrite lookup_insert_ne by done. by rewrite lookup_insert_eq. }
    assert (holds (data st) newName = true →
            holds (archived_under key trips (data st)) newName = true) as Hkeep.
    { intros Hh.
      destruct (decide (newName = key)) as [Heq|?]; [rewrite Heq; apply Hk|].
      destruct (decide (newName = "currentWeekName")) as [->|?].
      { unfold holds, archived_under. by rewrite lookup_insert_eq. }
      destruct (decide (newName = "active_trips")) as [->|?].
      { unfold holds, archived_under. rewrite lookup_insert_ne by done.
        by rewrite lookup_insert_eq. }
      by rewrite holds_archived_under. }
    destruct (holds (data st) newName) eqn:Hh.
    { destruct (rotates _ _ _); [by apply Hkeep|done]. }
    destruct Hex as [?|[-> Hsent]]; [done|].
    assert (rotates (data st) trips current = true) as ->.
    { unfold rotates. rewrite Hh.
      rewrite (bool_decide_false (current = DEFAULT_WEEK_NAME)) by done.
      by rewrite andb_false_r. }
    assert (key = current) as Hcur.
    { unfold key, archive_key. rewrite Hh.
      by rewrite (bool_decide_false (current = DEFAULT_WEEK_NAME)) by done. }
    specialize (Hk (data st)). by rewrite Hcur in Hk |- *. }
  destruct (rotates (data st) trips current); simpl; rewrite Hheld;
    by eexists.
Qed.

End NewWeek.

(** X16.  Renaming the active week changes the name and nothing else; the
    new name is the trimmed answer, not empty, and no key the document
    holds; the sentinel week is never renamed. *)
Theorem handleEditActiveWeekName_safe (answer : option string) (st st' : App)
    current :
  currentWeekName (data st) = Some current →
  handleEditActiveWeekName answer st = Some st' →
  (∀ k, k ≠ "currentWeekName" → data st' !! k = data st !! k)
  ∧ ∃ name', currentWeekName (data st') = Some name'
      ∧ (name' = current
         ∨ (current ≠ DEFAULT_WEEK_NAME ∧ holds (data st) name' = false
            ∧ name' ≠ "" ∧ ∃ a, answer = Some a ∧ name' = trim a)).
Proof.
  intros Hn. unfold handleEditActiveWeekName. rewrite Hn. simpl.
  assert (∀ s, Some s = Some st' → data s = data st →
            (∀ k, k ≠ "currentWeekName" → data st' !! k = data st !! k)
            ∧ ∃ name', currentWeekName (data st') = Some name'
                ∧ (name' = current
                   ∨ (current ≠ DEFAULT_WEEK_NAME ∧ holds (data st) name' = false
                      ∧ name' ≠ "" ∧ ∃ a, answer = Some a ∧ name' = trim a)))
    as Hsame.
  { intros s [= <-] Hd. rewrite Hd. split; [done|]. exists current. auto. }
  destruct (decide (current = DEFAULT_WEEK_NAME)) as [|Hsent];
    [intros Heq; by apply (Hsame _ Heq)|].
  destruct answer as [newName|]; [|intros Heq; by apply (Hsame _ Heq)].
  destruct (negb (bool_decide (newName = ""))
            && negb (bool_decide (trim newName = ""))) eqn:Hblank;
    [|intros Heq; by apply (Hsame _ Heq)].
  destruct (holds (data st) (trim newName)) eqn:Hh; [intros Heq; by apply (Hsame _ Heq)|].
  intros [= <-]. simpl. split.
  - intros k Hk. by rewrite lookup_insert_ne.
  - exists (trim newName). split.
    + unfold currentWeekName. by rewrite lookup_insert_eq.
    + right. split; [done|]. split; [done|]. split; [|by eexists].
      apply andb_true_iff in Hblank as [_ Hb].
      apply negb_true_iff in Hb. by apply bool_decide_eq_false in Hb.
Qed.


Lemma handleCreateNewWeek_refuses_witness :
  let st := two_weeks in
  let form := mkWeekForm "2024-06-03" "" in
  let newName := "Semana 03/06/2024 - 07/06/2024" in
  ∃ st', handleCreateNewWeek Z.of_nat "02/11/2026" form st
           = Some (mkWeekForm (newWeekDate form) (week_exists_message newName), st')
    ∧ data st' = data st ∧ saved st' = saved st
    ∧ modalOpen st' = modalOpen st.
Proof.
  intros st form newName.
  apply (handleCreateNewWeek_refuses Z.of_nat "02/11/2026" form st newName
           newName [monday_trip]).
  - discriminate.
  - vm_compute. reflexivity.
  - reflexivity.
  - reflexivity.
  - right. split; [reflexivity|discriminate].
Defined.

Lemma handleEditActiveWeekName_safe_witness :
  let st := two_weeks in
  let answer := Some " Primeira de junho " in
  let st' := default st (handleEditActiveWeekName answer st) in
  let current := "Semana 03/06/2024 - 07/06/2024" in
  (∀ k, k ≠ "currentWeekName" → data st' !! k = data st !! k)
  ∧ ∃ name', currentWeekName (data st') = Some name'
      ∧ (name' = current
         ∨ (current ≠ DEFAULT_WEEK_NAME ∧ holds (data st) name' = false
            ∧ name' ≠ "" ∧ ∃ a, answer = Some a ∧ name' = trim a)).
Proof.
  intros st answer st' current.
  apply (handleEditActiveWeekName_safe answer st st' current); reflexivity.
Defined.

(** ** Editing the trips of the week *)

Section Edits.

Variable localeCompare : string → string → Z.

Lemma trim_not_empty s : trim s ≠ "" → s ≠ "".
Proof. by intros H ->. Qed.

Lemma handleEditParticipantName_unfold st newName tIdx pIdx trips trip person :
  active_trips (data st) = Some trips →
  trips !! tIdx = Some trip → participants trip !! pIdx = Some person →
  trim newName ≠ "" →
  handleEditParticipantName localeCompare (Some newName) tIdx pIdx st
  = Some (saveData
            (<["active_trips" :=
                 Trips (<[tIdx :=
                           with_participants
                             (sort (by_name localeCompare)
                                (<[pIdx := mkParticipant (id person) (trim newName)
                                                         (paid person)]>
                                   (participants trip))) trip]> trips)]> (data st))
            st).
Proof.
  intros Ht Hi Hj Hb. unfold handleEditParticipantName.
  rewrite Ht; simpl; rewrite Hi; simpl; rewrite Hj; simpl.
  rewrite !bool_decide_false by (done || by apply trim_not_empty). done.
Qed.

Lemma payers_Permutation (ps qs : list Participant) :
  ps ≡ₚ qs →
  length (filter (λ p, paid p = true) ps) = length (filter (λ p, paid p = true) qs).
Proof. intros H. by rewrite H. Qed.

Lemma payers_insert (ps : list Participant) i p old :
  ps !! i = Some old → paid p = paid old →
  length (filter (λ p, paid p = true) (<[i := p]> ps))
  = length (filter (λ p, paid p = true) ps).
Proof.
  intros Hi Hp. rewrite !length_filter_sum.
  pose proof (sum_list_fmap_insert
                (λ p, if decide (paid p = true) then 1 else 0)%nat ps i p old Hi)
    as Hs.
  simpl in Hs. rewrite Hp in Hs. lia.
Qed.

(** X17.  A rename changes the name of one participant and keeps the id and
    the payment mark; the participants of the trip are the same records
    otherwise, put in the order of the comparator again; the count of payers
    and every other key of the document are as before. *)
Theorem handleEditParticipantName_renames (st : App) newName tIdx pIdx
    trips trip person :
  total_comparator localeCompare →
  active_trips (data st) = Some trips →
  trips !! tIdx = Some trip → participants trip !! pIdx = Some person →
  trim newName ≠ "" →
  ∃ st' ps,
    handleEditParticipantName localeCompare (Some newName) tIdx pIdx st = Some st'
    ∧ active_trips (data st') = Some (<[tIdx := with_participants ps trip]> trips)
    ∧ ps ≡ₚ <[pIdx := mkParticipant (id person) (trim newName) (paid person)]>
              (participants trip)
    ∧ Sorted (in_order (by_name localeCompare)) ps
    ∧ totalPayers (<[tIdx := with_participants ps trip]> trips) = totalPayers trips
    ∧ (∀ key, key ≠ "active_trips" → data st' !! key = data st !! key).
Proof.
  intros Htot Ht Hi Hj Hb.
  rewrite (handleEditParticipantName_unfold st newName tIdx pIdx trips trip person)
    by done.
  eexists _, _. split; [done|]. simpl.
  split; [apply active_trips_insert|].
  split; [apply sort_Permutation|].
  split; [by apply sort_Sorted, by_name_total|].
  split; [|intros key Hk; by rewrite lookup_insert_ne].
  rewrite !totalPayers_sum.
  pose proof (sum_list_fmap_insert
                (λ t, length (filter (λ p, paid p = true) (participants t)))
                trips tIdx
                (with_participants
                   (sort (by_name localeCompare)
                      (<[pIdx := mkParticipant (id person) (trim newName)
                                               (paid person)]>
                         (participants trip))) trip)
                trip Hi) as Hs.
  simpl in Hs.
  rewrite (payers_Permutation _ _ (sort_Permutation _ _)) in Hs.
  rewrite (payers_insert _ _ _ person) in Hs by done. lia.
Qed.

Lemma sum_list_fmap_delete {A} (f : A → nat) (l : list A) i old :
  l !! i = Some old →
  (sum_list (f <$> delete i l) + f old = sum_list (f <$> l))%nat.
Proof.
  revert i. induction l as [|y l IH]; intros [|i] Hi; simplify_eq/=; [lia|].
  specialize (IH i Hi). csimpl. lia.
Qed.

(** X18.  Removing a participant removes that one record: the trip stays in
    the list, at its place, even when nobody is left in it, the other trips
    are untouched, the count of participants drops by one and the count of
    payers by one exactly when the participant had paid. *)
Theorem handleDeleteParticipant_removes (st : App) tIdx pIdx trips trip person :
  active_trips (data st) = Some trips →
  trips !! tIdx = Some trip → participants trip !! pIdx = Some person →
  ∃ st' trips' trip',
    handleDeleteParticipant true tIdx pIdx st = Some st'
    ∧ active_trips (data st') = Some trips'
    ∧ length trips' = length trips
    ∧ trips' !! tIdx = Some trip' ∧ trip_key trip' = trip_key trip
    ∧ (∀ k, k ≠ tIdx → trips' !! k = trips !! k)
    ∧ (totalParticipants trips' + 1 = totalParticipants trips)%nat
    ∧ (totalPayers trips' + (if paid person then 1 else 0)
       = totalPayers trips)%nat.
Proof.
  intros Ht Hi Hj. unfold handleDeleteParticipant.
  rewrite Ht; simpl; rewrite Hi; simpl.
  eexists _, _, _. split; [done|]. simpl.
  split; [apply active_trips_insert|].
  split; [by rewrite length_insert|].
  split; [apply list_lookup_insert_eq; by eapply lookup_lt_Some|].
  split; [done|].
  split; [intros k Hk; by rewrite list_lookup_insert_ne|].
  rewrite !totalParticipants_sum, !totalPayers_sum. split.
  - pose proof (sum_list_fmap_insert (λ t, length (participants t)) trips tIdx
                  (with_participants (delete pIdx (participants trip)) trip)
                  trip Hi) as Hs.
    simpl in Hs.
    pose proof (sum_list_fmap_delete (λ _, 1%nat) (participants trip) pIdx
                  person Hj) as Hp.
    assert (∀ l : list Participant, sum_list ((λ _, 1%nat) <$> l) = length l)
      as Hlen.
    { induction l as [|? ? IH]; csimpl; [done|]. by rewrite IH. }
    rewrite !Hlen in Hp. lia.
  - pose proof (sum_list_fmap_insert
                  (λ t, length (filter (λ p, paid p = true) (participants t)))
                  trips tIdx
                  (with_participants (delete pIdx (participants trip)) trip)
                  trip Hi) as Hs.
    simpl in Hs. rewrite !length_filter_sum in Hs.
    pose proof (sum_list_fmap_delete
                  (λ p, if decide (paid p = true) then 1 else 0)%nat
                  (participants trip) pIdx person Hj) as Hp.
    simpl in Hp. destruct (paid person); simpl in *; lia.
Qed.

Lemma fmap_insert_same {A B} (f : A → B) (l : list A) i x old :
  l !! i = Some old → f x = f old → f <$> <[i := x]> l = f <$> l.
Proof.
  intros Hi Hf. rewrite list_fmap_insert, Hf.
  apply list_insert_id. by rewrite list_lookup_fmap, Hi.
Qed.

(** X19.  No edit of a trip card changes the day or the direction of a
    trip, adds a trip or reorders the trips: the days and directions after
    the edit are those before, less the trip deleted if one was; and the
    edit leaves every other key of the document as it is. *)
Theorem edit_keeps_days (e : trip_edit) (st st' : App) trips :
  active_trips (data st) = Some trips →
  edit localeCompare e st = Some st' →
  ∃ trips', active_trips (data st') = Some trips'
    ∧ (trip_key <$> trips') `sublist_of` (trip_key <$> trips)
    ∧ (∀ key, key ≠ "active_trips" → data st' !! key = data st !! key).
Proof.
  intros Ht.
  assert (∀ trips', (trip_key <$> trips') `sublist_of` (trip_key <$> trips) →
            ∃ trips'',
              active_trips (data (saveData (<["active_trips" := Trips trips']>
                                              (data st)) st)) = Some trips''
              ∧ (trip_key <$> trips'') `sublist_of` (trip_key <$> trips)
              ∧ (∀ key, key ≠ "active_trips" →
                   data (saveData (<["active_trips" := Trips trips']> (data st)) st)
                     !! key = data st !! key)) as Hsave.
  { intros trips' Hsub. exists trips'. simpl.
    split; [apply active_trips_insert|]. split; [done|].
    intros key Hk. by rewrite lookup_insert_ne. }
  assert (∃ trips', active_trips (data st) = Some trips'
            ∧ (trip_key <$> trips') `sublist_of` (trip_key <$> trips)
            ∧ (∀ key, key ≠ "active_trips" → data st !! key = data st !! key))
    as Hsame by by exists trips.
  destruct e as [confirmed index|confirmed tIdx pIdx|answer tIdx pIdx|tIdx pIdx];
    simpl.
  - unfold handleDeleteTrip. destruct confirmed; simpl; [|by intros [= <-]].
    rewrite Ht. simpl. intros [= <-]. apply Hsave.
    apply fmap_sublist, sublist_delete.
  - unfold handleDeleteParticipant. destruct confirmed; simpl; [|by intros [= <-]].
    rewrite Ht. simpl. destruct (trips !! tIdx) as [trip|] eqn:Hi; [|done].
    simpl. intros [= <-]. apply Hsave.
    by rewrite (fmap_insert_same trip_key _ _ _ trip).
  - unfold handleEditParticipantName. rewrite Ht. simpl.
    destruct (trips !! tIdx) as [trip|] eqn:Hi; [|done]. simpl.
    destruct (participants trip !! pIdx) as [person|]; [|done]. simpl.
    destruct answer as [newName|]; [|by intros [= <-]].
    destruct (_ && _); [|by intros [= <-]].
    intros [= <-]. apply Hsave.
    by rewrite (fmap_insert_same trip_key _ _ _ trip).
  - unfold handleTogglePayment. rewrite Ht. simpl.
    destruct (trips !! tIdx) as [trip|] eqn:Hi; [|done]. simpl.
    destruct (participants trip !! pIdx) as [person|]; [|done]. simpl.
    intros [= <-]. apply Hsave.
    by rewrite (fmap_insert_same trip_key _ _ _ trip).
Qed.

End Edits.

Lemma handleEditParticipantName_renames_witness :
  let st := monday_form in
  let person := mkParticipant "p-1717400000000-ana" "Ana" true in
  ∃ st' ps,
    handleEditParticipantName by_code (Some " Zuleica ") 0 0 st = Some st'
    ∧ active_trips (data st')
      = Some (<[0%nat := with_participants ps monday_trip]> [monday_trip])
    ∧ ps ≡ₚ <[0%nat := mkParticipant (id person) (trim " Zuleica ") (paid person)]>
              (participants monday_trip)
    ∧ Sorted (in_order (by_name by_code)) ps
    ∧ totalPayers (<[0%nat := with_participants ps monday_trip]> [monday_trip])
      = totalPayers [monday_trip]
    ∧ (∀ key, key ≠ "active_trips" → data st' !! key = data st !! key).
Proof.
  intros st person.
  apply (handleEditParticipantName_renames by_code st " Zuleica " 0 0
           [monday_trip] monday_trip person).
  - exact by_code_total.
  - reflexivity.
  - reflexivity.
  - reflexivity.
  - discriminate.
Defined.

Lemma handleDeleteParticipant_removes_witness :
  let st := monday_form in
  let person := mkParticipant "p-1717400000000-ana" "Ana" true in
  ∃ st' trips' trip',
    handleDeleteParticipant true 0 0 st = Some st'
    ∧ active_trips (data st') = Some trips'
    ∧ length trips' = length [monday_trip]
    ∧ trips' !! 0%nat = Some trip' ∧ trip_key trip' = trip_key monday_trip
    ∧ (∀ k, k ≠ 0%nat → trips' !! k = [monday_trip] !! k)
    ∧ (totalParticipants trips' + 1 = totalParticipants [monday_trip])%nat
    ∧ (totalPayers trips' + (if paid person then 1 else 0)
       = totalPayers [monday_trip])%nat.
Proof.
  intros st person.
  apply (handleDeleteParticipant_removes st 0 0 [monday_trip] monday_trip person);
    reflexivity.
Defined.

Lemma edit_keeps_days_witness :
  let st := monday_form in
  let st' := default st (edit by_code (DeleteTrip true 0) st) in
  ∃ trips', active_trips (data st') = Some trips'
    ∧ (trip_key <$> trips') `sublist_of` (trip_key <$> [monday_trip])
    ∧ (∀ key, key ≠ "active_trips" → data st' !! key = data st !! key).
Proof.
  intros st st'.
  apply (edit_keeps_days by_code (DeleteTrip true 0) st st' [monday_trip]);
    reflexivity.
Defined.

(** ** getAllUniqueNames *)

Section UniqueNamesProperties.

Variable localeCompare : string → string → Z.
Variable Object_keys : AppData → list string.

Lemma Set_of_distinct (l : list string) : NoDup (Set_of l).
Proof.
  induction l as [|x l IH]; simpl; constructor.
  - rewrite list_elem_of_filter. by intros [? _].
  - by apply NoDup_filter.
Qed.

Lemma names_of_elem_of trips n :
  n ∈ names_of trips ↔ ∃ t p, t ∈ trips ∧ p ∈ participants t ∧ name p = n.
Proof.
  unfold names_of. rewrite list_elem_of_bind. split.
  - intros (t & Hn & Ht). apply list_elem_of_fmap in Hn as (p & -> & Hp).
    by exists t, p.
  - intros (t & p & Ht & Hp & <-). exists t. split; [|done].
    by apply list_elem_of_fmap_2.
Qed.

(** X20.  The names offered by the form: each name borne by a participant
    of an active or archived trip, once, in the order of the comparator,
    and no other text. *)
Theorem getAllUniqueNames_spec (d : AppData) active :
  total_comparator localeCompare →
  (∀ key, key ∈ Object_keys d ↔ is_Some (d !! key)) →
  active_trips d = Some active →
  ∃ names, getAllUniqueNames localeCompare Object_keys d = Some names
    ∧ NoDup names
    ∧ Sorted (in_order localeCompare) names
    ∧ (∀ n, n ∈ names ↔
            ∃ key trips t p, key ≠ "currentWeekName"
              ∧ d !! key = Some (Trips trips)
              ∧ t ∈ trips ∧ p ∈ participants t ∧ name p = n).
Proof.
  intros Htot Hkeys Ht. unfold getAllUniqueNames. rewrite Ht. simpl.
  eexists. split; [done|].
  split; [rewrite sort_Permutation; apply Set_of_distinct|].
  split; [by apply sort_Sorted|].
  intros n. rewrite sort_Permutation, Set_of_elem_of, elem_of_app.
  rewrite names_of_elem_of, list_elem_of_bind. split.
  - intros [(t & p & Hin & Hp & Hn)|(key & Hn & Hkey)].
    + exists "active_trips", active, t, p. split; [done|].
      split; [by apply active_trips_lookup|done].
    + destruct (decide _) as [[Ha Hw]|]; [|by apply elem_of_nil in Hn].
      destruct (d !! key) as [[trips|]|] eqn:Hd;
        [|by apply elem_of_nil in Hn..].
      apply names_of_elem_of in Hn as (t & p & Hin & Hp & Hn).
      by exists key, trips, t, p.
  - intros (key & trips & t & p & Hw & Hd & Hin & Hp & Hn).
    destruct (decide (key = "active_trips")) as [->|Ha].
    + left. exists t, p. apply active_trips_lookup in Ht.
      rewrite Ht in Hd. by injection Hd as ->.
    + right. exists key. split; [|apply Hkeys; by rewrite Hd].
      rewrite decide_True by done. rewrite Hd.
      apply names_of_elem_of. by exists t, p.
Qed.

End UniqueNamesProperties.

Lemma getAllUniqueNames_spec_witness :
  let d := names_example in
  ∃ names, getAllUniqueNames by_code example_Object_keys d = Some names
    ∧ NoDup names
    ∧ Sorted (in_order by_code) names
    ∧ (∀ n, n ∈ names ↔
            ∃ key trips t p, key ≠ "currentWeekName"
              ∧ d !! key = Some (Trips trips)
              ∧ t ∈ trips ∧ p ∈ participants t ∧ name p = n).
Proof.
  intros d.
  apply (getAllUniqueNames_spec by_code example_Object_keys d [monday_trip]).
  - exact by_code_total.
  - intros key. unfold example_Object_keys.
    rewrite sort_Permutation, elem_of_elements, elem_of_dom. reflexivity.
  - reflexivity.
Defined.

(** ** The week name read back *)

Section WeekNameBack.

Lemma date_fields_ok : forallb date_field_ok (seqZ 0 100) = true.
Proof. vm_compute. reflexivity. Qed.

Lemma year_fields_ok : forallb year_field_ok (seqZ 1000 9000) = true.
Proof. vm_compute. reflexivity. Qed.

Lemma date_field n :
  0 <= n <= 99 →
  all_digits (two_digits n) = true
  ∧ read_digits 10 None (two_digits n) = Some n.
Proof.
  intros Hn. pose proof (forallb_seqZ _ _ _ n date_fields_ok ltac:(lia)) as H.
  unfold date_field_ok in H. apply andb_true_iff in H as [H1 H2].
  by apply bool_decide_eq_true in H2.
Qed.

Lemma year_field y :
  1000 <= y <= 9999 →
  String.length (decimal y) = 4%nat
  ∧ all_digits (decimal y) = true
  ∧ read_digits 10 None (decimal y) = Some y.
Proof.
  intros Hy. pose proof (forallb_seqZ _ _ _ y year_fields_ok ltac:(lia)) as H.
  unfold year_field_ok in H. apply andb_true_iff in H as [H H3].
  apply andb_true_iff in H as [H1 H2].
  apply Nat.eqb_eq in H1. by apply bool_decide_eq_true in H3.
Qed.

Lemma all_digits_no_slash s : all_digits s = true → occurs "/" s = false.
Proof.
  induction s as [|c s IH]; simpl; [done|].
  intros [Hc Hs]%andb_true_iff. rewrite IH by done.
  rewrite bool_decide_false; [done|]. intros ->. discriminate Hc.
Qed.

Lemma append_assoc (a b c : string) : (a +:+ b) +:+ c = a +:+ b +:+ c.
Proof.
  induction a as [|x a IH]; [done|].
  change (String x ((a +:+ b) +:+ c) = String x (a +:+ b +:+ c)).
  by rewrite IH.
Qed.

(** The pattern of the date, where a date stands. *)
Lemma date_here_text dd mm yy rest :
  String.length dd = 2%nat → String.length mm = 2%nat →
  String.length yy = 4%nat →
  all_digits dd = true → all_digits mm = true → all_digits yy = true →
  date_here (dd +:+ String "/" (mm +:+ String "/" (yy +:+ rest)))
  = Some (dd +:+ String "/" (mm +:+ String "/" yy)).
Proof.
  intros Ld Lm Ly Hd Hm Hy.
  destruct dd as [|d1 [|d2 [|]]]; try discriminate Ld.
  destruct mm as [|m1 [|m2 [|]]]; try discriminate Lm.
  destruct yy as [|y1 [|y2 [|y3 [|y4 [|]]]]]; try discriminate Ly.
  simpl in Hd, Hm, Hy.
  apply andb_true_iff in Hd as [Hd1 [Hd2 _]%andb_true_iff].
  apply andb_true_iff in Hm as [Hm1 [Hm2 _]%andb_true_iff].
  apply andb_true_iff in Hy as [Hy1 [Hy2 [Hy3 [Hy4 _]%andb_true_iff]%andb_true_iff]%andb_true_iff].
  simpl. by rewrite Hd1, Hd2, Hm1, Hm2, Hy1, Hy2, Hy3, Hy4.
Qed.

Lemma week_match_here s group :
  week_here s = Some group → week_match s = Some group.
Proof.
  intros H. destruct s as [|c s]; [discriminate H|].
  change (week_match (String c s))
    with (match week_here (String c s) with
          | Some group => Some group
          | None => week_match s
          end).
  by rewrite H.
Qed.

Lemma week_here_text c body :
  week_here ("Semana " +:+ String c body) = date_here (String c body).
Proof. reflexivity. Qed.

(** [new Date(y, m, d)] on the fields of a date is that date. *)
Lemma make_day_fields d :
  valid_date d → make_day (fullYear d) (month d) (date d) = d.
Proof.
  intros Hv. rewrite <- (Z.add_0_r (date d)).
  change 0 with (Z.of_nat 0). rewrite make_day_shift by done.
  by destruct d.
Qed.

(** The start date of a week name is read wherever the name goes on. *)
Lemma parseStartDateFromWeekName_text (d : Date) (rest : string) :
  valid_date d → 1000 <= fullYear d <= 9999 →
  parseStartDateFromWeekName (("Semana " +:+ DD_MM_YYYY d) +:+ rest)
  = Some (Some d).
Proof.
  intros Hv Hy. pose proof Hv as [Hm Hd].
  pose proof (days_in_month_bounds (fullYear d) (month d)).
  destruct (date_field (date d)) as [Dd Dr]; [lia|].
  destruct (date_field (month d + 1)) as [Md Mr]; [lia|].
  destruct (year_field (fullYear d)) as (Yl & Yd & Yr); [lia|].
  unfold parseStartDateFromWeekName, DD_MM_YYYY.
  rewrite !append_assoc.
  rewrite (week_match_here _ (two_digits (date d)
             +:+ String "/" (two_digits (month d + 1)
                             +:+ String "/" (decimal (fullYear d))))).
  2:{ etrans;
        [|apply (date_here_text (two_digits (date d)) (two_digits (month d + 1))
                   (decimal (fullYear d)) rest); done].
      reflexivity. }
  rewrite (split_app "/" _ _ (all_digits_no_slash _ Dd)).
  rewrite (split_app "/" _ _ (all_digits_no_slash _ Md)).
  rewrite (split_whole "/" _ (all_digits_no_slash _ Yd)).
  change (read_digits 10 None <$> [?a; ?b; ?c])
    with [read_digits 10 None a; read_digits 10 None b; read_digits 10 None c].
  rewrite Dr, Mr, Yr.
  change (Some (new_Date (Some (fullYear d))
                         (Some (month d + 1 - 1)) (Some (date d)))
          = Some (Some d)).
  replace (month d + 1 - 1) with (month d) by lia.
  unfold new_Date. simpl mbind.
  rewrite andb_false_intro2 by (apply Z.leb_gt; lia).
  by rewrite make_day_fields.
Qed.

(** What [generateWeekName] makes of the value of a date input. *)
Lemma generateWeekName_text (d : Date) :
  valid_date d → 1000 <= fullYear d →
  generateWeekName (date_input d)
    = Some ("Semana " +:+ DD_MM_YYYY d +:+ " - "
            +:+ DD_MM_YYYY (Nat.iter 4 next_day d)).
Proof.
  intros Hv Hy. pose proof Hv as [Hm Hd].
  pose proof (days_in_month_bounds (fullYear d) (month d)).
  destruct (year_text (fullYear d)) as [Yd Yp]; [lia|].
  destruct (field_text (month d + 1)) as (Md & Mp & _); [lia|].
  destruct (field_text (date d)) as (Dd & Dp & _); [lia|].
  unfold generateWeekName.
  rewrite decide_False.
  2:{ unfold date_input. destruct (decimal (fullYear d)); discriminate. }
  change (date_input d) with
    (decimal (fullYear d)
     +:+ String "-" (two_digits (month d + 1)
                     +:+ String "-" (two_digits (date d)))).
  rewrite (split_app "-" _ _ Yd), (split_app "-" _ _ Md), (split_whole "-" _ Dd).
  unfold parseInt_part. simpl lookup. simpl mbind.
  rewrite Yp, Mp, Dp. simpl minus.
  replace (month d + 1 - 1) with (month d) by lia.
  unfold new_Date. simpl mbind.
  rewrite andb_false_intro2 by (apply Z.leb_gt; lia).
  rewrite (make_day_fields d Hv). simpl plus. simpl setDate.
  change 4 with (Z.of_nat 4). rewrite make_day_shift by done.
  rewrite !formatDate_valid by auto using iter_next_day_valid.
  by destruct d.
Qed.

(** X21.  The start date is read back from the name of the week: for a
    calendar date with a year of four digits, [parseStartDateFromWeekName]
    on the name [generateWeekName] gives, alone or followed by any text
    (the mark of an archive, say), returns that date. *)
Theorem parseStartDateFromWeekName_round_trip (d : Date) :
  valid_date d → 1000 <= fullYear d <= 9999 →
  ∃ weekName, generateWeekName (date_input d) = Some weekName
    ∧ parseStartDateFromWeekName weekName = Some (Some d)
    ∧ ∀ suffix, parseStartDateFromWeekName (weekName +:+ suffix) = Some (Some d).
Proof.
  intros Hv Hy. eexists. split; [apply generateWeekName_text; [done|lia]|].
  assert (∀ rest, ("Semana " +:+ DD_MM_YYYY d +:+ rest)
                  = ("Semana " +:+ DD_MM_YYYY d) +:+ rest) as Hassoc.
  { intros rest. by rewrite append_assoc. }
  split.
  - rewrite Hassoc. by apply parseStartDateFromWeekName_text.
  - intros suffix. rewrite Hassoc, append_assoc.
    by apply parseStartDateFromWeekName_text.
Qed.

End WeekNameBack.

Lemma parseStartDateFromWeekName_round_trip_witness :
  let d := mkDate 2024 1 27 in
  ∃ weekName, generateWeekName (date_input d) = Some weekName
    ∧ parseStartDateFromWeekName weekName = Some (Some d)
    ∧ ∀ suffix, parseStartDateFromWeekName (weekName +:+ suffix) = Some (Some d).
Proof.
  intros d.
  apply (parseStartDateFromWeekName_round_trip d).
  - unfold valid_date. change (days_in_month _ _) with 29. simpl. lia.
  - simpl. lia.
Defined.

(** ** The store under any sequence of saves and waits *)

Section StoreInvariants.

Variable setItem_succeeds : AppData → bool.

Abbreviation run' := (run setItem_succeeds).

Lemma elapse_tracked ms st :
  tracked st →
  tracked (elapse ms st)
  ∧ ((timers (elapse ms st) = timers st ∧ upserts (elapse ms st) = upserts st)
     ∨ ∃ t, timers st = [t] ∧ timers (elapse ms st) = []
            ∧ upserts (elapse ms st) = (upserts st ++ [payload t])%list).
Proof.
  intros [Hnil|(t & Ht & Hs)]; unfold elapse, tracked; simpl.
  - rewrite Hnil. simpl. rewrite app_nil_r. split; [by left|by left].
  - rewrite Ht, !filter_cons, !filter_nil.
    repeat case_decide; try done; simpl.
    + rewrite app_nil_r. split; [right; by exists t|by left].
    + split; [by left|]. right. by exists t.
Qed.

Lemma run_snoc es e st : run' (es ++ [e]) st = react setItem_succeeds (run' es st) e.
Proof. unfold run. by rewrite foldl_app. Qed.

Lemma saved_docs_snoc es e :
  saved_docs (es ++ [e])
  = (saved_docs es ++ match e with Save doc => [doc] | Elapse _ => [] end)%list.
Proof. unfold saved_docs. rewrite bind_app. csimpl. by rewrite app_nil_r. Qed.

(** X22.  Whatever the saves and the waits, from a store with no timer
    pending: at most one timer is pending at any time, and what was sent to
    the remote table, followed by what is pending, is a selection of the
    saved documents, in their order, that ends with the last saved one.  So
    once no timer is pending the last document sent is the last one saved. *)
Theorem run_sends_last_saved (st : Store) (events : list event) :
  timers st = [] →
  let st' := run' events st in
  tracked st'
  ∧ ∃ sent, upserts st' = (upserts st ++ sent)%list
      ∧ (sent ++ (payload <$> timers st'))%list `sublist_of` saved_docs events
      ∧ last (sent ++ (payload <$> timers st'))%list = last (saved_docs events).
Proof.
  intros Hnil. induction events as [|e es IH] using rev_ind; simpl.
  { split; [by left|]. exists []. rewrite app_nil_r, Hnil. done. }
  destruct IH as (Htr & sent & Hu & Hsub & Hlast).
  rewrite run_snoc, saved_docs_snoc.
  destruct e as [doc|ms]; unfold react.
  - destruct (saveAppData_just_saved setItem_succeeds doc _ Htr)
      as (h & Ht & Hs & Hup).
    split.
    { right. eexists. split; [exact Ht|done]. }
    exists sent. rewrite Hup, Ht. split; [done|]. csimpl. split.
    + apply sublist_app; [|done].
      etrans; [|exact Hsub]. by apply sublist_inserts_r.
    + by rewrite !last_snoc.
  - rewrite app_nil_r.
    destruct (elapse_tracked ms _ Htr) as [Htr' [[Ht Hup]|(t & Ht & Ht' & Hup)]].
    + split; [done|]. exists sent. by rewrite Ht, Hup.
    + split; [done|]. exists (sent ++ [payload t])%list.
      rewrite Hup, Hu, Ht', app_assoc. rewrite Ht in Hsub, Hlast.
      csimpl. rewrite app_nil_r. done.
Qed.

Lemma localStorage_saveAppData doc st :
  localStorage (saveAppData setItem_succeeds doc st)
  = if setItem_succeeds doc then Some doc else localStorage st.
Proof.
  unfold saveAppData.
  destruct (setItem_succeeds doc); simpl;
    by destruct (saveTimeout st).
Qed.

(** X23.  The local copy is the last saved document the local storage
    accepted; a save it rejects, and the passing of time, leave the copy
    that was there. *)
Theorem run_localStorage (st : Store) (events : list event) :
  localStorage (run' events st)
  = match last (filter (λ doc, setItem_succeeds doc = true) (saved_docs events)) with
    | Some doc => Some doc
    | None => localStorage st
    end.
Proof.
  induction events as [|e es IH] using rev_ind; [done|].
  rewrite run_snoc, saved_docs_snoc, filter_app.
  destruct e as [doc|ms]; unfold react.
  - rewrite localStorage_saveAppData, IH, filter_cons, filter_nil.
    destruct (setItem_succeeds doc) eqn:Hs.
    + rewrite decide_True by done. by rewrite last_snoc.
    + rewrite decide_False by (by intros [=]). by rewrite app_nil_r.
  - rewrite filter_nil, app_nil_r. simpl. exact IH.
Qed.

End StoreInvariants.

Lemma run_sends_last_saved_witness :
  let st := idle_store in
  let st' := run (λ _, true) three_saves st in
  tracked st'
  ∧ ∃ sent, upserts st' = (upserts st ++ sent)%list
      ∧ (sent ++ (payload <$> timers st'))%list `sublist_of` saved_docs three_saves
      ∧ last (sent ++ (payload <$> timers st'))%list = last (saved_docs three_saves).
Proof.
  intros st.
  apply (run_sends_last_saved (λ _, true) st three_saves). reflexivity.
Defined.

Lemma loadAppData_effects_witness :
  let w := mkBackend (ReadReturns None false) false (Got (Some "{}")) false in
  let load := loadAppData example_JSON_parse (λ _, "{}") in
  (∀ text, cached (load w) = Some text →
     text = (λ _, "{}") (result (load w))
     ∧ ∃ payload error, remote w = ReadReturns (Some payload) error
                        ∧ truthy payload = true)
  ∧ (∀ payload, inserted (load w) = Some payload →
       payload = emptyDocument ∧ cached (load w) = None
       ∧ remote w = ReadReturns None false
       ∧ (insert_throws w = false → result (load w) = emptyDocument)).
Proof.
  intros w load. exact (loadAppData_effects example_JSON_parse (λ _, "{}") w).
Defined.
